(** * pass-inator: the password generator of [main.go]

    A shallow embedding of [secureRandomInt], [validateConfig] and
    [generatePassword], with the operating system's random source kept
    abstract, and the properties of the generation algorithm proved over
    it. *)

From Stdlib Require Import ZArith Lia Ascii String DecimalString.
From stdpp Require Import base list.

Open Scope Z_scope.

(** ** Go values *)

(** A Go [string] is a sequence of bytes. *)
Abbreviation gostring := (list ascii).

Definition lit (s : string) : gostring := list_ascii_of_string s.

(** [len(s)], a Go [int]. *)
Definition len {A} (s : list A) : Z := Z.of_nat (length s).

(** Go's [int] is 64 bits wide on the platforms the program is built for;
    arithmetic on it wraps around. *)
Definition intSize : Z := 64.

Definition int_wrap (z : Z) : Z :=
  (z + 2 ^ (intSize - 1)) mod 2 ^ intSize - 2 ^ (intSize - 1).

Definition int_sub (a b : Z) : Z := int_wrap (a - b).

Definition is_int (z : Z) : Prop :=
  - 2 ^ (intSize - 1) <= z < 2 ^ (intSize - 1).

(** ** Constants, [main.go] lines 13-19 *)

Definition minPasswordLength : Z := 6.
Definition lowercaseChars : gostring := lit "abcdefghijklmnopqrstuvwxyz".
Definition uppercaseChars : gostring := lit "ABCDEFGHIJKLMNOPQRSTUVWXYZ".
Definition numberChars : gostring := lit "0123456789".
Definition specialChars : gostring := lit "!@#$%^&*()_+-=[]{}|;:,.<>?".

(** ** [PasswordConfig], lines 22-28 *)

Record PasswordConfig := {
  Length : Z;
  UseLowercase : bool;
  UseUppercase : bool;
  UseNumbers : bool;
  UseSpecialChars : bool
}.

(** ** Errors

    One constructor per error value the program can build: the two
    [fmt.Errorf] of [validateConfig], the one of [secureRandomInt], the
    error [rand.Int] hands back when the entropy source cannot be read, and
    the two wrappers ([%w]) of [generatePassword]. *)
Inductive error :=
| ErrMaxNotPositive              (* "max must be positive" *)
| ErrReader (msg : string)       (* returned by rand.Int *)
| ErrPasswordLength (min : Z)    (* "password length must be at least %d characters" *)
| ErrNoCharacterType             (* "at least one character type must be selected" *)
| ErrRandomIndex (cause : error) (* "failed to generate random index: %w" *)
| ErrShuffle (cause : error).    (* "failed to shuffle password: %w" *)

(** The error kinds the specification names. *)
Definition InvalidLength : error := ErrPasswordLength minPasswordLength.
Definition NoCharacterClassSelected : error := ErrNoCharacterType.

Definition isRngError (e : error) : bool :=
  match e with
  | ErrRandomIndex _ | ErrShuffle _ => true
  | _ => false
  end.

(** ** Conversions between strings and rune slices

    [[]rune(s)] decodes [s] as UTF-8, one rune per encoded character and
    U+FFFD for every byte that starts no valid encoding; [string(runes)]
    encodes each rune, U+FFFD for surrogates and values out of range. *)
Abbreviation rune := Z (only parsing).
Definition RuneError : rune := 0xFFFD.

Definition byte_val (b : ascii) : Z := Z.of_N (N_of_ascii b).
Definition byte_of (z : Z) : ascii := ascii_of_N (Z.to_N z).

(** The table [first] of unicode/utf8 joined with [acceptRanges]: for a
    leading byte, the size of the encoding and the range accepted for the
    second byte; [None] for a byte that leads no encoding. *)
Definition utf8_first (s0 : Z) : option (Z * Z * Z) :=
  if s0 <? 0xC2 then None
  else if s0 <? 0xE0 then Some (2, 0x80, 0xBF)
  else if s0 =? 0xE0 then Some (3, 0xA0, 0xBF)
  else if s0 =? 0xED then Some (3, 0x80, 0x9F)
  else if s0 <? 0xF0 then Some (3, 0x80, 0xBF)
  else if s0 =? 0xF0 then Some (4, 0x90, 0xBF)
  else if s0 <? 0xF4 then Some (4, 0x80, 0xBF)
  else if s0 =? 0xF4 then Some (4, 0x80, 0x8F)
  else None.

Definition is_cont (b : Z) : bool := (0x80 <=? b) && (b <=? 0xBF).

Fixpoint runes_of_string (s : gostring) : list rune :=
  match s with
  | [] => []
  | b0 :: t0 =>
    let s0 := byte_val b0 in
    if s0 <? 0x80 then s0 :: runes_of_string t0
    else
      match utf8_first s0, t0 with
      | Some (sz, lo, hi), b1 :: t1 =>
        let s1 := byte_val b1 in
        if (s1 <? lo) || (hi <? s1) then RuneError :: runes_of_string t0
        else if sz <=? 2 then
          Z.lor (Z.shiftl (Z.land s0 0x1F) 6) (Z.land s1 0x3F)
            :: runes_of_string t1
        else
          match t1 with
          | b2 :: t2 =>
            let s2 := byte_val b2 in
            if negb (is_cont s2) then RuneError :: runes_of_string t0
            else if sz <=? 3 then
              Z.lor (Z.lor (Z.shiftl (Z.land s0 0x0F) 12)
                           (Z.shiftl (Z.land s1 0x3F) 6))
                    (Z.land s2 0x3F)
                :: runes_of_string t2
            else
              match t2 with
              | b3 :: t3 =>
                let s3 := byte_val b3 in
                if negb (is_cont s3) then RuneError :: runes_of_string t0
                else
                  Z.lor (Z.lor (Z.lor (Z.shiftl (Z.land s0 0x07) 18)
                                      (Z.shiftl (Z.land s1 0x3F) 12))
                               (Z.shiftl (Z.land s2 0x3F) 6))
                        (Z.land s3 0x3F)
                    :: runes_of_string t3
              | [] => RuneError :: runes_of_string t0
              end
          | [] => RuneError :: runes_of_string t0
          end
      | _, _ => RuneError :: runes_of_string t0
      end
  end.

Definition encode3 (r : rune) : gostring :=
  [byte_of (Z.lor 0xE0 (Z.shiftr r 12));
   byte_of (Z.lor 0x80 (Z.land (Z.shiftr r 6) 0x3F));
   byte_of (Z.lor 0x80 (Z.land r 0x3F))].

Definition encode_rune (r : rune) : gostring :=
  if (0 <=? r) && (r <=? 0x7F) then [byte_of r]
  else if (0 <=? r) && (r <=? 0x7FF) then
    [byte_of (Z.lor 0xC0 (Z.shiftr r 6));
     byte_of (Z.lor 0x80 (Z.land r 0x3F))]
  else if (r <? 0) || (0x10FFFF <? r) || ((0xD800 <=? r) && (r <=? 0xDFFF))
  then encode3 RuneError
  else if r <=? 0xFFFF then encode3 r
  else
    [byte_of (Z.lor 0xF0 (Z.shiftr r 18));
     byte_of (Z.lor 0x80 (Z.land (Z.shiftr r 12) 0x3F));
     byte_of (Z.lor 0x80 (Z.land (Z.shiftr r 6) 0x3F));
     byte_of (Z.lor 0x80 (Z.land r 0x3F))].

Definition string_of_runes (rs : list rune) : gostring :=
  concat (map encode_rune rs).

(** ** Outcomes of a call *)

(** A Go call returns its value, or returns an error next to the zero value
    of its type (every [return] of an error in [main.go] has this form), or
    panics (an index out of range). *)
Inductive result (A : Type) :=
| Returned (a : A)
| Failed (e : error)
| Panicked.
Arguments Returned {A} a.
Arguments Failed {A} e.
Arguments Panicked {A}.

Definition isASCII (c : ascii) : bool := byte_val c <? 0x80.

Definition isPrintable (c : ascii) : bool :=
  (0x21 <=? byte_val c) && (byte_val c <=? 0x7E).

#[global] Instance ascii_eq_decision : EqDecision ascii := ascii_dec.

(** ** The world the program runs in

    The state of the random source, and the argument of every call of
    [secureRandomInt] made so far, oldest first. *)
Record World (Src : Type) := { reader : Src; calls : list Z }.
Arguments reader {Src} _.
Arguments calls {Src} _.
Arguments Build_World {Src} _ _.

(** ** Two concrete random sources

    A source that never fails (a linear congruential generator reduced into
    the range asked for), and a scripted source that answers from a list
    and reports an unreadable entropy source once the list is used up. *)
Definition lcg_Int (seed : Z) (max : Z) : (Z + error) * Z :=
  (inl (seed mod max), (seed * 1103515245 + 12345) mod 2 ^ 31).

Definition script_Int (script : list Z) (max : Z) : (Z + error) * list Z :=
  match script with
  | [] => (inr (ErrReader "entropy source unreadable"), [])
  | x :: rest => (inl (x mod max), rest)
  end.

(** What the program reads and writes: the state of standard input, and
    every write to standard output, oldest first. *)
Record Console (In : Type) := { stdin : In; stdout : list gostring }.
Arguments stdin {In} _.
Arguments stdout {In} _.
Arguments Build_Console {In} _ _.

(** ** Concrete instances of the library functions of the interactive layer

    Standard input as the list of the lines still to come, each read giving
    the next one and the empty string at the end of input; and the ASCII
    behaviour of [strings.TrimSpace], [strings.ToLower] and [strconv.Atoi]. *)
Definition script_ReadString (lines : list gostring) : gostring * list gostring :=
  match lines with
  | [] => ([], [])
  | l :: rest => (l, rest)
  end.

Definition asciiSpace (c : ascii) : bool :=
  let b := byte_val c in
  ((0x09 <=? b) && (b <=? 0x0D)) || (b =? 0x20).

Fixpoint trimLeft (s : gostring) : gostring :=
  match s with
  | c :: rest => if asciiSpace c then trimLeft rest else s
  | [] => []
  end.

Definition ascii_TrimSpace (s : gostring) : gostring :=
  rev (trimLeft (rev (trimLeft s))).

Definition ascii_ToLower (s : gostring) : gostring :=
  map (fun c => let b := byte_val c in
                if (0x41 <=? b) && (b <=? 0x5A) then byte_of (b + 0x20) else c) s.

Definition digits_Atoi (s : gostring) : option Z :=
  let parse (digits : gostring) :=
    match NilZero.int_of_string (string_of_list_ascii digits) with
    | Some d =>
      let z := Z.of_int d in
      if (- 2 ^ 63 <=? z) && (z <? 2 ^ 63) then Some z else None
    | None => None
    end in
  match s with
  | "+"%char :: rest =>
    match rest with
    | "+"%char :: _ | "-"%char :: _ => None
    | _ => parse rest
    end
  | _ => parse s
  end.

(** ** Configurations and worlds to run the program on *)

Definition allClasses12 : PasswordConfig :=
  {| Length := 12; UseLowercase := true; UseUppercase := true;
     UseNumbers := true; UseSpecialChars := true |}.

Definition lowercase6 : PasswordConfig :=
  {| Length := 6; UseLowercase := true; UseUppercase := false;
     UseNumbers := false; UseSpecialChars := false |}.

Definition lowercase5 : PasswordConfig :=
  {| Length := 5; UseLowercase := true; UseUppercase := false;
     UseNumbers := false; UseSpecialChars := false |}.

Definition noClass10 : PasswordConfig :=
  {| Length := 10; UseLowercase := false; UseUppercase := false;
     UseNumbers := false; UseSpecialChars := false |}.

Definition noClass5 : PasswordConfig :=
  {| Length := 5; UseLowercase := false; UseUppercase := false;
     UseNumbers := false; UseSpecialChars := false |}.

Definition seeded (seed : Z) : World Z := {| reader := seed; calls := [] |}.

Definition scripted (script : list Z) : World (list Z) :=
  {| reader := script; calls := [] |}.

(** A line as the user types it, and a console with the lines to come. *)
Definition typed (s : string) : gostring := lit s ++ ["010"%char].

Definition console (lines : list gostring) : Console (list gostring) :=
  {| stdin := lines; stdout := [] |}.

(** ** The program, over an abstract random source *)

Section Generator.

(** [crypto/rand]: the state of [rand.Reader] and the function [rand.Int],
    which answers a number or the reader's error. *)
Context {Src : Type}.
Variable rand_Int : Src -> Z -> (Z + error) * Src.

Definition M (A : Type) : Type := World Src -> result A * World Src.

Definition ret {A} (a : A) : M A := fun w => (Returned a, w).
Definition fail {A} (e : error) : M A := fun w => (Failed e, w).
Definition panic {A} : M A := fun w => (Panicked, w).

Definition bind {A B} (m : M A) (f : A -> M B) : M B :=
  fun w =>
    match m w with
    | (Returned a, w') => f a w'
    | (Failed e, w') => (Failed e, w')
    | (Panicked, w') => (Panicked, w')
    end.

Notation "'let*' x ':=' m 'in' k" := (bind m (fun x => k))
  (at level 10, x name, m at level 100, k at level 200).

(** [if err != nil { return "", fmt.Errorf("...: %w", err) }] *)
Definition wrap {A} (f : error -> error) (m : M A) : M A :=
  fun w =>
    match m w with
    | (Failed e, w') => (Failed (f e), w')
    | r => r
    end.

(** What the caller of a function of type [(string, error)] receives;
    nothing when the call panics. *)
Definition returned_values (r : result gostring) : option (gostring * option error) :=
  match r with
  | Returned s => Some (s, None)
  | Failed e => Some ([], Some e)
  | Panicked => None
  end.

(** [s[idx]] *)
Definition byteAt (s : gostring) (idx : Z) : M ascii :=
  if idx <? 0 then panic
  else match s !! Z.to_nat idx with
       | Some c => ret c
       | None => panic
       end.

(** [secureRandomInt], lines 31-40. The argument is recorded on entry.
    [max] is a Go [int] and the answer of [rand.Int] lies below it, so the
    conversions [int64(max)] and [int(n.Int64())] change no value. *)
Definition secureRandomInt (max : Z) : M Z :=
  fun w =>
    let cs := calls w ++ [max] in
    if max <=? 0 then (Failed ErrMaxNotPositive, {| reader := reader w; calls := cs |})
    else
      match rand_Int (reader w) max with
      | (inl n, r) => (Returned n, {| reader := r; calls := cs |})
      | (inr err, r) => (Failed err, {| reader := r; calls := cs |})
      end.

(** [validateConfig], lines 50-58; [None] is [nil]. *)
Definition validateConfig (config : PasswordConfig) : option error :=
  if Length config <? minPasswordLength then
    Some (ErrPasswordLength minPasswordLength)
  else if negb (UseLowercase config) && negb (UseUppercase config)
          && negb (UseNumbers config) && negb (UseSpecialChars config) then
    Some ErrNoCharacterType
  else None.

(** Lines 66-79: "Build character set based on configuration". *)
Definition buildCharSet (config : PasswordConfig) : gostring :=
  let charSet := [] in
  let charSet := if UseLowercase config then charSet ++ lowercaseChars else charSet in
  let charSet := if UseUppercase config then charSet ++ uppercaseChars else charSet in
  let charSet := if UseNumbers config then charSet ++ numberChars else charSet in
  let charSet := if UseSpecialChars config then charSet ++ specialChars else charSet in
  charSet.

(** The block the source repeats five times (lines 84-88, 91-95, 98-102,
    105-109 and 115-119): draw an index into [chars] and write the byte
    found there to the builder. *)
Definition writeRandomByte (chars : gostring) (password : gostring) : M gostring :=
  let* idx := wrap ErrRandomIndex (secureRandomInt (len chars)) in
  let* c := byteAt chars idx in
  ret (password ++ [c]).

(** Lines 82-110: "Ensure at least one character from each selected type". *)
Definition ensureEachType (config : PasswordConfig) (password : gostring) : M gostring :=
  let* password :=
    if UseLowercase config then writeRandomByte lowercaseChars password
    else ret password in
  let* password :=
    if UseUppercase config then writeRandomByte uppercaseChars password
    else ret password in
  let* password :=
    if UseNumbers config then writeRandomByte numberChars password
    else ret password in
  let* password :=
    if UseSpecialChars config then writeRandomByte specialChars password
    else ret password in
  ret password.

(** Lines 114-120: the loop [for i := 0; i < remainingLength; i++], by the
    number of iterations left. *)
Fixpoint fillLoop (n : nat) (charSet : gostring) (password : gostring) : M gostring :=
  match n with
  | O => ret password
  | S n' =>
    let* password := writeRandomByte charSet password in
    fillLoop n' charSet password
  end.

(** Lines 112-120: "Fill the rest of the password with random characters".
    The loop runs [remainingLength] times, and not at all when that is
    zero or negative. *)
Definition fillRest (config : PasswordConfig) (charSet : gostring)
    (password : gostring) : M gostring :=
  let remainingLength := int_sub (Length config) (len password) in
  fillLoop (Z.to_nat remainingLength) charSet password.

(** The accumulator as it stands before the shuffle (lines 66-120). *)
Definition accumulate (config : PasswordConfig) : M gostring :=
  let charSet := buildCharSet config in
  let* password := ensureEachType config [] in
  fillRest config charSet password.

(** Line 130: [passwordRunes[i], passwordRunes[j] = passwordRunes[j],
    passwordRunes[i]]. Both elements are read first (either read panics
    out of range), then position [i] is assigned, then position [j]. *)
Definition swapRunes (passwordRunes : list rune) (i : nat) (j : Z) : M (list rune) :=
  if j <? 0 then panic
  else
    match passwordRunes !! Z.to_nat j, passwordRunes !! i with
    | Some rj, Some ri => ret (<[Z.to_nat j := ri]> (<[i := rj]> passwordRunes))
    | _, _ => panic
    end.

(** Lines 125-131: the loop [for i := len(passwordRunes) - 1; i > 0; i--],
    by the value of [i]. [i] is below the length of a slice, so [i + 1]
    does not wrap. *)
Fixpoint shuffleLoop (i : nat) (passwordRunes : list rune) : M (list rune) :=
  match i with
  | O => ret passwordRunes
  | S i' =>
    let* j := wrap ErrShuffle (secureRandomInt (Z.of_nat i + 1)) in
    let* passwordRunes := swapRunes passwordRunes i j in
    shuffleLoop i' passwordRunes
  end.

(** Lines 122-133: "Shuffle the password using Fisher-Yates algorithm".
    [len(passwordRunes) - 1] is [-1] for the empty slice, where the loop
    does not run either. *)
Definition shuffle (passwordStr : gostring) : M gostring :=
  let passwordRunes := runes_of_string passwordStr in
  let* passwordRunes := shuffleLoop (length passwordRunes - 1) passwordRunes in
  ret (string_of_runes passwordRunes).

(** [generatePassword], lines 61-134. *)
Definition generatePassword (config : PasswordConfig) : M gostring :=
  match validateConfig config with
  | Some err => fail err
  | None =>
    let* password := accumulate config in
    shuffle password
  end.

(** ** The algorithm as the specification words it *)

Inductive charClass := Lowercase | Uppercase | Digits | Symbols.

Definition classTable (k : charClass) : gostring :=
  match k with
  | Lowercase => lowercaseChars
  | Uppercase => uppercaseChars
  | Digits => numberChars
  | Symbols => specialChars
  end.

Definition classEnabled (config : PasswordConfig) (k : charClass) : bool :=
  match k with
  | Lowercase => UseLowercase config
  | Uppercase => UseUppercase config
  | Digits => UseNumbers config
  | Symbols => UseSpecialChars config
  end.

Definition canonicalOrder : list charClass := [Lowercase; Uppercase; Digits; Symbols].

Definition enabledClasses (config : PasswordConfig) : list charClass :=
  List.filter (classEnabled config) canonicalOrder.

(** "Compose alphabet": the enabled classes' tables, concatenated in the
    canonical order. *)
Definition alphabet (config : PasswordConfig) : gostring :=
  concat (map classTable (enabledClasses config)).

(** The table each character of the accumulator is drawn from: its own
    table for each enabled class ("guarantee inclusion"), then the composed
    alphabet [remaining] times ("fill remainder"). *)
Definition sources (config : PasswordConfig) (remaining : nat) : list gostring :=
  map classTable (enabledClasses config) ++ replicate remaining (alphabet config).

Definition drawSources (config : PasswordConfig) : list gostring :=
  sources config (Z.to_nat (Length config - len (enabledClasses config))).

(** The number of iterations of the fill loop once every enabled class has
    written its byte: [config.Length - password.Len()], on Go's [int]. *)
Definition fillCount (config : PasswordConfig) : nat :=
  Z.to_nat (int_sub (Length config) (len (enabledClasses config))).

(** One draw per table, in order: an index below the table's length from
    the random source, and the character found there. *)
Fixpoint drawEach (tables : list gostring) (r : Src) : (gostring + error) * Src :=
  match tables with
  | [] => (inl [], r)
  | t :: ts =>
    match rand_Int r (len t) with
    | (inl idx, r') =>
      match drawEach ts r' with
      | (inl cs, r'') => (inl (nth (Z.to_nat idx) t zero :: cs), r'')
      | (inr e, r'') => (inr e, r'')
      end
    | (inr e, r') => (inr e, r')
    end
  end.

(** The sequence with the elements at positions [i] and [j] exchanged. *)
Definition exchanged {A} (i j : nat) (l : list A) : list A :=
  imap (fun k x =>
          if decide (k = i) then default x (l !! j)
          else if decide (k = j) then default x (l !! i)
          else x) l.

(** Fisher-Yates: "for index [i] from [length-1] down to [1], draw [j]
    uniformly from [[0, i]] and swap the characters at positions [i] and
    [j]"; a failure of the source aborts. *)
Fixpoint fisherYates {A} (i : nat) (l : list A) (r : Src) : (list A + error) * Src :=
  match i with
  | O => (inl l, r)
  | S i' =>
    match rand_Int r (Z.of_nat i + 1) with
    | (inl j, r') => fisherYates i' (exchanged i (Z.to_nat j) l) r'
    | (inr e, r') => (inr e, r')
    end
  end.

(** The arguments of the draws of the shuffle that starts at index [i]:
    [i+1], [i], ..., [2]. *)
Fixpoint shuffleBounds (i : nat) : list Z :=
  match i with
  | O => []
  | S i' => (Z.of_nat i + 1) :: shuffleBounds i'
  end.

(** The state of the random source once it has answered, one after the
    other, calls with the given bounds. *)
Fixpoint afterDraws (bounds : list Z) (r : Src) : Src :=
  match bounds with
  | [] => r
  | b :: bs => afterDraws bs (snd (rand_Int r b))
  end.

(** The source failed in the run from [w] to [w']: the last call recorded,
    like every call before it, had a positive bound, and [rand.Int]
    answered it with the error [cause], in the state the earlier calls of
    the run had left the source in. *)
Definition source_failed (w w' : World Src) (cause : error) : Prop :=
  exists bs max,
    Forall (fun b => 0 < b) (bs ++ [max]) /\
    calls w' = calls w ++ bs ++ [max] /\
    rand_Int (afterDraws bs (reader w)) max = (inr cause, reader w').

(** ** The contract of [rand.Int] *)

(** A number it returns for a positive [max] lies in [[0, max)]. *)
Definition honours_bound : Prop :=
  forall r max, 0 < max ->
    match rand_Int r max with
    | (inl n, _) => 0 <= n < max
    | (inr _, _) => True
    end.

(** The entropy source can always be read. *)
Definition never_fails : Prop :=
  forall r max, 0 < max -> exists n r', rand_Int r max = (inl n, r').

(** A password holds a character of every enabled class and none of a
    disabled class. *)
Definition covers (config : PasswordConfig) (s : gostring) : Prop :=
  forall k : charClass,
    if classEnabled config k then exists c, c ∈ s /\ c ∈ classTable k
    else forall c, c ∈ s -> c ∉ classTable k.

(** [writeRandomByte] for each table of a list in turn. *)
Fixpoint writeAll (tables : list gostring) (password : gostring) : M gostring :=
  match tables with
  | [] => ret password
  | t :: ts =>
    let* password := writeRandomByte t password in
    writeAll ts password
  end.

(** ** The interactive layer *)

(** The library functions the interactive layer calls:
    [bufio.NewReader(os.Stdin).ReadString('\n')], which answers the text
    read (the program drops its error); [strings.TrimSpace];
    [strings.ToLower]; and [strconv.Atoi], [None] when it returns an
    error. *)
Context {In : Type}.
Variable stdin_ReadString : In -> gostring * In.
Variable TrimSpace : gostring -> gostring.
Variable ToLower : gostring -> gostring.
Variable Atoi : gostring -> option Z.

Definition newline : gostring := ["010"%char].

(** [fmt.Print(s)] and [fmt.Println(s)] of one string. *)
Definition Print (s : gostring) (c : Console In) : Console In :=
  {| stdin := stdin c; stdout := stdout c ++ [s] |}.

Definition Println (s : gostring) (c : Console In) : Console In :=
  Print (s ++ newline) c.

(** The verb [%d]. *)
Definition formatInt (z : Z) : gostring :=
  lit (NilZero.string_of_int (Z.to_int z)).

(** [err.Error()], the text the verb [%v] prints: the format strings of the
    [fmt.Errorf] calls, with [%w] replaced by the text of the cause. *)
Fixpoint errorMessage (e : error) : gostring :=
  match e with
  | ErrMaxNotPositive => lit "max must be positive"
  | ErrReader msg => lit msg
  | ErrPasswordLength min =>
      lit "password length must be at least " ++ formatInt min ++ lit " characters"
  | ErrNoCharacterType => lit "at least one character type must be selected"
  | ErrRandomIndex cause => lit "failed to generate random index: " ++ errorMessage cause
  | ErrShuffle cause => lit "failed to shuffle password: " ++ errorMessage cause
  end.

(** [readUserInput], lines 136-141. *)
Definition readUserInput (prompt : gostring) (c : Console In) : gostring * Console In :=
  let c := Print prompt c in
  let (input, rest) := stdin_ReadString (stdin c) in
  (TrimSpace input, {| stdin := rest; stdout := stdout c |}).

(** [readYesNo], lines 143-154. The loop [for { ... }] is bounded by
    [fuel] iterations; [None] when no answer was accepted within them. *)
Fixpoint readYesNo (fuel : nat) (prompt : gostring) (c : Console In)
    : option (bool * Console In) :=
  match fuel with
  | O => None
  | S fuel' =>
    let (answer, c) := readUserInput prompt c in
    let input := ToLower answer in
    if bool_decide (input = lit "y") || bool_decide (input = lit "yes") then
      Some (true, c)
    else if bool_decide (input = lit "n") || bool_decide (input = lit "no") then
      Some (false, c)
    else readYesNo fuel' prompt (Println (lit "Please enter 'y' or 'n'") c)
  end.

(** Lines 160-174 of [main]: the length, with the fallback to the minimum
    when it does not parse, then the four questions in the order of the
    fields of the composite literal. *)
Definition readConfig (fuel : nat) (c : Console In)
    : option (PasswordConfig * Console In) :=
  let (lengthStr, c) :=
    readUserInput (lit "Enter password length (minimum " ++ formatInt minPasswordLength ++ lit "): ") c in
  let (length, c) :=
    match Atoi lengthStr with
    | Some n => (n, c)
    | None =>
        (minPasswordLength,
         Print (lit "Error: Invalid length. Using minimum length of " ++ formatInt minPasswordLength ++ newline) c)
    end in
  match readYesNo fuel (lit "Include lowercase letters? (y/n): ") c with
  | None => None
  | Some (lower, c) =>
  match readYesNo fuel (lit "Include uppercase letters? (y/n): ") c with
  | None => None
  | Some (upper, c) =>
  match readYesNo fuel (lit "Include numbers? (y/n): ") c with
  | None => None
  | Some (numbers, c) =>
  match readYesNo fuel (lit "Include special characters? (y/n): ") c with
  | None => None
  | Some (special, c) =>
      Some ({| Length := length; UseLowercase := lower; UseUppercase := upper;
               UseNumbers := numbers; UseSpecialChars := special |}, c)
  end end end end.

(** How the process ends: [os.Exit(1)], the return of [main] (status 0),
    or a panic. *)
Inductive termination := Exited (status : Z) | Crashed.

(** [main], lines 156-187; [None] when a question was not answered within
    [fuel] attempts. *)
Definition main (fuel : nat) (c : Console In) (w : World Src)
    : option (termination * Console In * World Src) :=
  let c := Println (lit "Welcome to Pass-inator - Your Secure Password Generator") c in
  let c := Println (lit "-----------------------------------------------------") c in
  match readConfig fuel c with
  | None => None
  | Some (config, c) =>
    match generatePassword config w with
    | (Failed err, w) =>
        Some (Exited 1,
              Print (lit "Error generating password: " ++ errorMessage err ++ newline) c, w)
    | (Panicked, w) => Some (Crashed, c, w)
    | (Returned password, w) =>
        let c := Println (newline ++ lit "Your generated password is:") c in
        let c := Println (lit "------------------------") c in
        let c := Println password c in
        let c := Println (lit "------------------------") c in
        Some (Exited 0, c, w)
    end
  end.

(** The console once [main] has written its two opening lines (157-158). *)
Definition greeted (c : Console In) : Console In :=
  Println (lit "-----------------------------------------------------")
    (Println (lit "Welcome to Pass-inator - Your Secure Password Generator") c).

(** The console once [main] has written a password (lines 183-186). *)
Definition shown (password : gostring) (c : Console In) : Console In :=
  Println (lit "------------------------")
    (Println password
       (Println (lit "------------------------")
          (Println (newline ++ lit "Your generated password is:") c))).

(** The answer [readYesNo] takes from a line as it was read, if any. *)
Definition yesNo (line : gostring) : option bool :=
  let input := ToLower (TrimSpace line) in
  if bool_decide (input = lit "y") || bool_decide (input = lit "yes") then Some true
  else if bool_decide (input = lit "n") || bool_decide (input = lit "no") then Some false
  else None.

(** Standard input after [k] reads, and the line the next read gives. *)
Fixpoint afterReads (k : nat) (i : In) : In :=
  match k with
  | O => i
  | S k' => afterReads k' (snd (stdin_ReadString i))
  end.

Definition lineAt (k : nat) (i : In) : gostring :=
  fst (stdin_ReadString (afterReads k i)).

(** What [readYesNo] has written once it accepted the line after [k]
    refused ones. *)
Definition askedTimes (k : nat) (prompt : gostring) : list gostring :=
  concat (replicate k [prompt; lit "Please enter 'y' or 'n'" ++ newline]) ++ [prompt].

(** ** Arithmetic and the monad *)

Lemma int_wrap_id (z : Z) : is_int z -> int_wrap z = z.
Proof.
  unfold is_int, int_wrap, intSize. intros Hz.
  change (2 ^ (64 - 1)) with 9223372036854775808 in *.
  change (2 ^ 64) with 18446744073709551616.
  rewrite Z.mod_small; lia.
Qed.

Lemma len_app {A} (a b : list A) : len (a ++ b) = len a + len b.
Proof. unfold len. rewrite length_app. lia. Qed.

Lemma bind_Returned {A B} (m : M A) (f : A -> M B) w b w' :
  bind m f w = (Returned b, w') ->
  exists a w1, m w = (Returned a, w1) /\ f a w1 = (Returned b, w').
Proof.
  unfold bind. destruct (m w) as [[a | e |] w1]; intros H; try discriminate.
  exists a, w1. split; [reflexivity | exact H].
Qed.

Lemma bind_ret_r {A} (m : M A) w : bind m ret w = m w.
Proof. unfold bind, ret. destruct (m w) as [[a | e |] w1]; reflexivity. Qed.

Lemma bind_ext {A B} (m : M A) (f g : A -> M B) w :
  (forall a w1, f a w1 = g a w1) -> bind m f w = bind m g w.
Proof.
  intros H. unfold bind. destruct (m w) as [[a | e |] w1]; [apply H | reflexivity ..].
Qed.

Lemma bind_assoc {A B C} (m : M A) (f : A -> M B) (g : B -> M C) w :
  bind (bind m f) g w = bind m (fun a => bind (f a) g) w.
Proof. unfold bind. destruct (m w) as [[a | e |] w1]; reflexivity. Qed.

(** ** One draw *)

Lemma secureRandomInt_Returned max w n w' :
  secureRandomInt max w = (Returned n, w') ->
  0 < max /\ rand_Int (reader w) max = (inl n, reader w') /\
  calls w' = calls w ++ [max].
Proof.
  unfold secureRandomInt. destruct (max <=? 0) eqn:Hmax; [discriminate |].
  destruct (rand_Int (reader w) max) as [[k | e] r]; intros H; inversion H; subst.
  simpl. repeat split. lia.
Qed.

Lemma writeRandomByte_Returned chars pw w pw' w' :
  writeRandomByte chars pw w = (Returned pw', w') ->
  exists c, c ∈ chars /\ pw' = pw ++ [c] /\ calls w' = calls w ++ [len chars].
Proof.
  unfold writeRandomByte. intros H.
  apply bind_Returned in H as (idx & w1 & Hidx & H).
  apply bind_Returned in H as (c & w2 & Hc & H).
  unfold ret in H. inversion H; subst; clear H.
  unfold wrap in Hidx.
  destruct (secureRandomInt (len chars) w) as [[k | e |] w3] eqn:Hs; inversion Hidx; subst.
  apply secureRandomInt_Returned in Hs as (_ & _ & Hcalls).
  unfold byteAt in Hc. destruct (idx <? 0); [discriminate |].
  destruct (chars !! Z.to_nat idx) as [c' |] eqn:Hl; inversion Hc; subst.
  exists c. split; [| split; [reflexivity | exact Hcalls]].
  apply list_elem_of_lookup. eauto.
Qed.

Lemma writeRandomByte_run chars pw w :
  honours_bound -> 0 < len chars ->
  writeRandomByte chars pw w =
  match rand_Int (reader w) (len chars) with
  | (inl idx, r') =>
      (Returned (pw ++ [nth (Z.to_nat idx) chars zero]),
       {| reader := r'; calls := calls w ++ [len chars] |})
  | (inr e, r') =>
      (Failed (ErrRandomIndex e),
       {| reader := r'; calls := calls w ++ [len chars] |})
  end.
Proof.
  intros Hb Hpos. specialize (Hb (reader w) (len chars) Hpos).
  unfold writeRandomByte, bind, wrap, secureRandomInt.
  destruct (len chars <=? 0) eqn:Hmax; [lia |].
  destruct (rand_Int (reader w) (len chars)) as [[idx | e] r']; [| reflexivity].
  unfold byteAt. destruct (idx <? 0) eqn:Hneg; [lia |].
  destruct (chars !! Z.to_nat idx) as [c |] eqn:Hl.
  - unfold ret. rewrite nth_lookup, Hl. reflexivity.
  - apply lookup_ge_None in Hl. unfold len in Hb. lia.
Qed.

(** ** A run of draws *)

Lemma writeAll_app ts1 ts2 pw w :
  writeAll (ts1 ++ ts2) pw w = bind (writeAll ts1 pw) (writeAll ts2) w.
Proof.
  revert pw w. induction ts1 as [| t ts1 IH]; intros pw w; simpl.
  - reflexivity.
  - rewrite bind_assoc. apply bind_ext. intros a w1. apply IH.
Qed.

Lemma writeAll_Returned ts pw w pw' w' :
  writeAll ts pw w = (Returned pw', w') ->
  exists cs, pw' = pw ++ cs /\ Forall2 (fun t c => c ∈ t) ts cs /\
             calls w' = calls w ++ map len ts.
Proof.
  revert pw w. induction ts as [| t ts IH]; intros pw w H; simpl in H.
  - unfold ret in H. inversion H; subst. exists [].
    rewrite !app_nil_r. repeat split. constructor.
  - apply bind_Returned in H as (pw1 & w1 & H1 & H2).
    apply writeRandomByte_Returned in H1 as (c & Hc & -> & Hcalls).
    apply IH in H2 as (cs & -> & Hall & Hcalls2).
    exists (c :: cs). rewrite <- app_assoc. split; [reflexivity |].
    split; [constructor; assumption |].
    rewrite Hcalls2, Hcalls, <- app_assoc. reflexivity.
Qed.

Lemma writeAll_run ts pw w :
  honours_bound -> Forall (fun t => 0 < len t) ts ->
  match drawEach ts (reader w) with
  | (inl cs, r') =>
      writeAll ts pw w =
      (Returned (pw ++ cs), {| reader := r'; calls := calls w ++ map len ts |})
  | (inr e, _) => fst (writeAll ts pw w) = Failed (ErrRandomIndex e)
  end.
Proof.
  intros Hb Hts. revert pw w.
  induction Hts as [| t ts Ht Hts IH]; intros pw w; simpl.
  - unfold ret. rewrite !app_nil_r. destruct w; reflexivity.
  - unfold bind at 1. unfold bind at 1.
    rewrite (writeRandomByte_run t pw w Hb Ht).
    destruct (rand_Int (reader w) (len t)) as [[idx | e] r1]; [| reflexivity].
    specialize (IH (pw ++ [nth (Z.to_nat idx) t zero])
                   {| reader := r1; calls := calls w ++ [len t] |}).
    simpl in IH.
    destruct (drawEach ts r1) as [[cs | e] r2].
    + rewrite IH, <- !app_assoc. reflexivity.
    + exact IH.
Qed.

Lemma drawEach_length ts r cs r' :
  drawEach ts r = (inl cs, r') -> length cs = length ts.
Proof.
  revert r cs. induction ts as [| t ts IH]; intros r cs H; simpl in H.
  - inversion H. reflexivity.
  - destruct (rand_Int r (len t)) as [[idx | e] r1]; [| discriminate].
    destruct (drawEach ts r1) as [[cs1 | e] r2] eqn:Hd; inversion H; subst.
    simpl. f_equal. eapply IH, Hd.
Qed.

Lemma drawEach_total ts r :
  never_fails -> Forall (fun t => 0 < len t) ts ->
  exists cs r', drawEach ts r = (inl cs, r').
Proof.
  intros Hnf Hts. revert r.
  induction Hts as [| t ts Ht Hts IH]; intros r; simpl.
  - eauto.
  - destruct (Hnf r (len t) Ht) as (idx & r1 & ->).
    destruct (IH r1) as (cs & r2 & ->). eauto.
Qed.

(** ** The accumulator is a run of draws *)

Lemma buildCharSet_alphabet config : buildCharSet config = alphabet config.
Proof.
  unfold buildCharSet, alphabet, enabledClasses.
  destruct config as [n [] [] [] []]; reflexivity.
Qed.

Lemma ensureEachType_writeAll config pw w :
  ensureEachType config pw w =
  writeAll (map classTable (enabledClasses config)) pw w.
Proof.
  unfold ensureEachType, enabledClasses.
  destruct config as [n [] [] [] []]; simpl;
    unfold bind, ret;
    repeat match goal with
           | |- context [writeRandomByte ?t ?p ?v] =>
             destruct (writeRandomByte t p v) as [[? | ? |] ?]
           end; reflexivity.
Qed.

Lemma fillLoop_writeAll n charSet pw w :
  fillLoop n charSet pw w = writeAll (replicate n charSet) pw w.
Proof.
  revert pw w. induction n as [| n IH]; intros pw w; simpl.
  - reflexivity.
  - apply bind_ext. intros a w1. apply IH.
Qed.

Lemma enabledClasses_bound config : (length (enabledClasses config) <= 4)%nat.
Proof. destruct config as [n [] [] [] []]; simpl; lia. Qed.

Lemma validateConfig_None config :
  validateConfig config = None ->
  6 <= Length config /\ enabledClasses config <> [].
Proof.
  unfold validateConfig, minPasswordLength.
  destruct (Length config <? 6) eqn:Hlen; [discriminate |].
  destruct config as [n [] [] [] []]; simpl in *; intros H;
    (discriminate || (split; [lia | discriminate])).
Qed.

Lemma accumulate_writeAll_wrap config w :
  accumulate config w =
  writeAll (sources config (fillCount config)) [] w.
Proof.
  unfold accumulate, sources, fillCount. rewrite writeAll_app.
  unfold bind. rewrite ensureEachType_writeAll.
  destruct (writeAll (map classTable (enabledClasses config)) [] w)
    as [[pw | e |] w1] eqn:Hw; [| reflexivity ..].
  apply writeAll_Returned in Hw as (cs & -> & Hall & _).
  apply Forall2_length in Hall. rewrite length_map in Hall.
  unfold fillRest. rewrite fillLoop_writeAll, buildCharSet_alphabet.
  replace (len ([] ++ cs)) with (len (enabledClasses config))
    by (unfold len; simpl; lia).
  reflexivity.
Qed.

Lemma remaining_no_wrap config :
  validateConfig config = None -> is_int (Length config) ->
  int_sub (Length config) (len (enabledClasses config)) =
  Length config - len (enabledClasses config).
Proof.
  intros Hv Hint. apply validateConfig_None in Hv as [Hlen _].
  pose proof (enabledClasses_bound config) as Hk.
  unfold int_sub. apply int_wrap_id.
  unfold is_int, intSize, len in *.
  change (2 ^ (64 - 1)) with 9223372036854775808 in *. lia.
Qed.

Lemma accumulate_writeAll config w :
  validateConfig config = None -> is_int (Length config) ->
  accumulate config w = writeAll (drawSources config) [] w.
Proof.
  intros Hv Hint. rewrite accumulate_writeAll_wrap.
  unfold drawSources, fillCount. rewrite remaining_no_wrap by assumption.
  reflexivity.
Qed.

(** ** The shuffle *)

Lemma exchanged_insert {A} (l : list A) (i j : nat) (x y : A) :
  l !! i = Some x -> l !! j = Some y ->
  exchanged i j l = <[j := x]> (<[i := y]> l).
Proof.
  intros Hi Hj. apply list_eq. intros k.
  unfold exchanged. rewrite list_lookup_imap.
  pose proof (lookup_lt_Some _ _ _ Hi) as Hli.
  pose proof (lookup_lt_Some _ _ _ Hj) as Hlj.
  destruct (decide (k = j)) as [-> | Hkj].
  - rewrite list_lookup_insert_eq by (rewrite length_insert; exact Hlj).
    rewrite Hj. simpl. destruct (decide (j = i)) as [-> | Hji].
    + congruence.
    + rewrite Hi. reflexivity.
  - rewrite list_lookup_insert_ne by congruence.
    destruct (decide (k = i)) as [-> | Hki].
    + rewrite list_lookup_insert_eq by exact Hli.
      rewrite Hi. simpl. rewrite Hj. reflexivity.
    + rewrite list_lookup_insert_ne by congruence.
      destruct (l !! k); reflexivity.
Qed.

Lemma swapRunes_Returned l i j w l' w' :
  swapRunes l i j w = (Returned l', w') ->
  Permutation l' l /\ w' = w.
Proof.
  unfold swapRunes. destruct (j <? 0); [discriminate |].
  destruct (l !! Z.to_nat j) as [rj |] eqn:Hj; [| discriminate].
  destruct (l !! i) as [ri |] eqn:Hi; [| discriminate].
  unfold ret. intros H. inversion H; subst. split; [| reflexivity].
  apply Permutation_insert_swap; assumption.
Qed.

Lemma shuffleLoop_Returned i l w l' w' :
  shuffleLoop i l w = (Returned l', w') ->
  Permutation l' l /\ calls w' = calls w ++ shuffleBounds i.
Proof.
  revert l w. induction i as [| i IH]; intros l w H.
  - simpl in H. unfold ret in H. inversion H; subst.
    simpl. rewrite app_nil_r. split; reflexivity.
  - cbn [shuffleLoop] in H.
    apply bind_Returned in H as (j & w1 & Hj & H).
    apply bind_Returned in H as (l1 & w2 & Hs & H).
    unfold wrap in Hj.
    destruct (secureRandomInt (Z.of_nat (S i) + 1) w) as [[k | e |] w3] eqn:Hr;
      inversion Hj; subst.
    apply secureRandomInt_Returned in Hr as (_ & _ & Hc).
    apply swapRunes_Returned in Hs as [Hp ->].
    apply IH in H as [Hp' Hc'].
    split; [etransitivity; eassumption |].
    rewrite Hc', Hc, <- app_assoc. reflexivity.
Qed.

Lemma shuffleLoop_step i l w :
  honours_bound -> (S i < length l)%nat ->
  shuffleLoop (S i) l w =
  match rand_Int (reader w) (Z.of_nat (S i) + 1) with
  | (inl j, r') =>
      shuffleLoop i (exchanged (S i) (Z.to_nat j) l)
        {| reader := r'; calls := calls w ++ [Z.of_nat (S i) + 1] |}
  | (inr e, r') =>
      (Failed (ErrShuffle e),
       {| reader := r'; calls := calls w ++ [Z.of_nat (S i) + 1] |})
  end.
Proof.
  intros Hb Hi.
  assert (Hpos : 0 < Z.of_nat (S i) + 1) by lia.
  specialize (Hb (reader w) _ Hpos).
  cbn [shuffleLoop]. unfold bind, wrap, secureRandomInt.
  destruct (Z.of_nat (S i) + 1 <=? 0) eqn:Hmax; [apply Z.leb_le in Hmax; lia |].
  destruct (rand_Int (reader w) (Z.of_nat (S i) + 1)) as [[j | e] r1];
    [| reflexivity].
  destruct (lookup_lt_is_Some_2 l (S i) Hi) as [ri Hri].
  assert (Hjlt : (Z.to_nat j < length l)%nat) by lia.
  destruct (lookup_lt_is_Some_2 l (Z.to_nat j) Hjlt) as [rj Hrj].
  rewrite (exchanged_insert l (S i) (Z.to_nat j) ri rj Hri Hrj).
  unfold swapRunes.
  destruct (j <? 0) eqn:Hneg; [apply Z.ltb_lt in Hneg; lia |].
  rewrite Hrj, Hri. reflexivity.
Qed.

Lemma exchanged_length {A} i j (l : list A) : length (exchanged i j l) = length l.
Proof. unfold exchanged. apply length_imap. Qed.

Lemma shuffleLoop_run i l w :
  honours_bound -> (i < length l)%nat \/ i = O ->
  match fisherYates i l (reader w) with
  | (inl l', r') =>
      shuffleLoop i l w =
      (Returned l', {| reader := r'; calls := calls w ++ shuffleBounds i |})
  | (inr e, _) => fst (shuffleLoop i l w) = Failed (ErrShuffle e)
  end.
Proof.
  intros Hb. revert l w. induction i as [| i IH]; intros l w Hi.
  - simpl. unfold ret. rewrite app_nil_r. destruct w; reflexivity.
  - destruct Hi as [Hi | Hi]; [| discriminate].
    rewrite (shuffleLoop_step i l w Hb Hi).
    cbn [fisherYates shuffleBounds].
    destruct (rand_Int (reader w) (Z.of_nat (S i) + 1)) as [[j | e] r1];
      [| reflexivity].
    set (l1 := exchanged (S i) (Z.to_nat j) l).
    assert (Hl1 : (i < length l1)%nat \/ i = O).
    { left. subst l1. rewrite exchanged_length. lia. }
    specialize (IH l1 {| reader := r1;
                         calls := calls w ++ [Z.of_nat (S i) + 1] |} Hl1).
    cbn [reader calls] in IH.
    destruct (fisherYates i l1 r1) as [[l' | e] r2].
    + rewrite IH, <- app_assoc. reflexivity.
    + exact IH.
Qed.

Lemma fisherYates_total {A} i (l : list A) r :
  never_fails -> exists l' r', fisherYates i l r = (inl l', r').
Proof.
  intros Hnf. revert l r. induction i as [| i IH]; intros l r.
  - simpl. eauto.
  - cbn [fisherYates].
    destruct (Hnf r (Z.of_nat (S i) + 1)) as (j & r1 & ->); [lia |].
    apply IH.
Qed.

Lemma shuffleBounds_length i : length (shuffleBounds i) = i.
Proof. induction i as [| i IH]; simpl; [reflexivity | f_equal; exact IH]. Qed.

(** ** The tables, and the conversions on them *)

Lemma classTable_ascii k : Forall (fun c => isASCII c = true) (classTable k).
Proof. destruct k; repeat constructor. Qed.

Lemma classTable_nonempty k : 0 < len (classTable k).
Proof. destruct k; reflexivity. Qed.

Lemma classTable_disjoint k1 k2 c :
  k1 <> k2 -> c ∈ classTable k1 -> c ∉ classTable k2.
Proof.
  intros Hne H1 H2.
  apply list_elem_of_In in H1. apply list_elem_of_In in H2.
  destruct k1, k2; try congruence; clear Hne;
    simpl in H1; simpl in H2;
    repeat (destruct H1 as [<- | H1];
            [repeat (destruct H2 as [H2 | H2]; [discriminate H2 |]); exact H2 |]);
    exact H1.
Qed.

Lemma byte_of_val c : byte_of (byte_val c) = c.
Proof. unfold byte_of, byte_val. rewrite N2Z.id. apply ascii_N_embedding. Qed.

Lemma byte_val_range c : 0 <= byte_val c.
Proof. unfold byte_val. lia. Qed.

Lemma runes_of_ascii s :
  Forall (fun c => isASCII c = true) s -> runes_of_string s = map byte_val s.
Proof.
  induction 1 as [| c s Hc Hs IH]; [reflexivity |].
  cbn [runes_of_string map]. unfold isASCII in Hc. cbv zeta. rewrite Hc, IH.
  reflexivity.
Qed.

Lemma string_of_ascii_runes rs :
  Forall (fun r => 0 <= r <= 0x7F) rs -> string_of_runes rs = map byte_of rs.
Proof.
  unfold string_of_runes.
  induction 1 as [| r rs Hr Hrs IH]; [reflexivity |].
  cbn [map concat]. rewrite IH. unfold encode_rune.
  destruct (0 <=? r) eqn:H0; [| apply Z.leb_gt in H0; lia].
  destruct (r <=? 0x7F) eqn:H1; [| apply Z.leb_gt in H1; lia].
  reflexivity.
Qed.

Lemma shuffled_string s rs :
  Forall (fun c => isASCII c = true) s ->
  Permutation rs (runes_of_string s) ->
  Permutation (string_of_runes rs) s.
Proof.
  intros Hs Hp. rewrite (runes_of_ascii s Hs) in Hp.
  assert (Hrs : Forall (fun r => 0 <= r <= 0x7F) rs).
  { rewrite Hp. apply Forall_forall. intros r Hr.
    apply list_elem_of_In, in_map_iff in Hr as (c & <- & Hc).
    rewrite Forall_forall in Hs. apply list_elem_of_In in Hc.
    specialize (Hs c Hc). unfold isASCII in Hs. apply Z.ltb_lt in Hs.
    pose proof (byte_val_range c). lia. }
  rewrite (string_of_ascii_runes rs Hrs).
  transitivity (map byte_of (map byte_val s)).
  - apply Permutation_map, Hp.
  - rewrite map_map. erewrite map_ext; [rewrite map_id; reflexivity |].
    intros c. apply byte_of_val.
Qed.

(** ** Where the characters of the accumulator come from *)

Lemma enabledClasses_spec config k :
  k ∈ enabledClasses config <-> classEnabled config k = true.
Proof.
  unfold enabledClasses. rewrite list_elem_of_In, filter_In.
  split; [tauto |]. intros H. split; [| exact H].
  destruct k; simpl; tauto.
Qed.

Lemma alphabet_member config ch :
  ch ∈ alphabet config ->
  exists k, classEnabled config k = true /\ ch ∈ classTable k.
Proof.
  unfold alphabet. intros H.
  apply list_elem_of_In, in_concat in H as (t & Ht & Hch).
  apply in_map_iff in Ht as (k & <- & Hk).
  exists k. split.
  - apply enabledClasses_spec, list_elem_of_In, Hk.
  - apply list_elem_of_In, Hch.
Qed.

Lemma sources_member config n t :
  t ∈ sources config n ->
  forall ch, ch ∈ t -> exists k, classEnabled config k = true /\ ch ∈ classTable k.
Proof.
  unfold sources. intros Ht ch Hch.
  apply elem_of_app in Ht as [Ht | Ht].
  - apply list_elem_of_In, in_map_iff in Ht as (k & <- & Hk).
    exists k. split; [| exact Hch].
    apply enabledClasses_spec, list_elem_of_In, Hk.
  - apply elem_of_replicate in Ht as [-> _].
    apply alphabet_member, Hch.
Qed.

Lemma sources_nonempty config n :
  enabledClasses config <> [] ->
  Forall (fun t => 0 < len t) (sources config n).
Proof.
  intros Hne. apply Forall_forall. intros t Ht.
  unfold sources in Ht. apply elem_of_app in Ht as [Ht | Ht].
  - apply list_elem_of_In, in_map_iff in Ht as (k & <- & _).
    apply classTable_nonempty.
  - apply elem_of_replicate in Ht as [-> _].
    destruct config as [m [] [] [] []]; try reflexivity.
    exfalso. apply Hne. reflexivity.
Qed.

Lemma drawn_from_enabled config n acc ch :
  Forall2 (fun t c => c ∈ t) (sources config n) acc ->
  ch ∈ acc ->
  exists k, classEnabled config k = true /\ ch ∈ classTable k.
Proof.
  intros Hall Hch.
  apply list_elem_of_lookup in Hch as [i Hi].
  destruct (Forall2_lookup_r _ _ _ _ _ Hall Hi) as (t & Ht & Hin).
  eapply sources_member; [| exact Hin].
  apply list_elem_of_lookup. eauto.
Qed.

Lemma drawn_ascii config n acc :
  Forall2 (fun t c => c ∈ t) (sources config n) acc ->
  Forall (fun c => isASCII c = true) acc.
Proof.
  intros Hall. apply Forall_forall. intros ch Hch.
  destruct (drawn_from_enabled _ _ _ _ Hall Hch) as (k & _ & Hk).
  pose proof (classTable_ascii k) as Ha. rewrite Forall_forall in Ha.
  apply Ha, Hk.
Qed.

Lemma drawn_covers config n acc s :
  Forall2 (fun t c => c ∈ t) (sources config n) acc ->
  Permutation s acc ->
  covers config s.
Proof.
  intros Hall Hp k. destruct (classEnabled config k) eqn:Hk.
  - apply enabledClasses_spec, list_elem_of_lookup in Hk as [i Hi].
    assert (Ht : sources config n !! i = Some (classTable k)).
    { unfold sources. apply lookup_app_l_Some.
      rewrite list_lookup_fmap, Hi. reflexivity. }
    destruct (Forall2_lookup_l _ _ _ _ _ Hall Ht) as (ch & Hch & Hin).
    exists ch. split; [| exact Hin].
    rewrite Hp. apply list_elem_of_lookup. eauto.
  - intros ch Hch Hin. rewrite Hp in Hch.
    destruct (drawn_from_enabled _ _ _ _ Hall Hch) as (k' & Hk' & Hin').
    apply (classTable_disjoint k' k ch); [congruence | assumption ..].
Qed.

(** ** [generatePassword] as a whole *)

Lemma runes_length s :
  Forall (fun c => isASCII c = true) s -> length (runes_of_string s) = length s.
Proof. intros Hs. rewrite (runes_of_ascii s Hs). apply length_map. Qed.

Lemma generatePassword_Returned config w s w' :
  generatePassword config w = (Returned s, w') ->
  validateConfig config = None /\
  exists acc w1,
    accumulate config w = (Returned acc, w1) /\
    shuffle acc w1 = (Returned s, w') /\
    Forall2 (fun t c => c ∈ t) (sources config (fillCount config)) acc /\
    Permutation s acc /\
    calls w' = calls w ++ map len (sources config (fillCount config))
                       ++ shuffleBounds (length acc - 1).
Proof.
  unfold generatePassword.
  destruct (validateConfig config) as [err |]; [discriminate |].
  intros H. split; [reflexivity |].
  apply bind_Returned in H as (acc & w1 & Hacc & Hsh).
  exists acc, w1. split; [exact Hacc |]. split; [exact Hsh |].
  rewrite accumulate_writeAll_wrap in Hacc.
  apply writeAll_Returned in Hacc as (cs & Hcs & Hall & Hc1).
  simpl in Hcs. subst cs.
  pose proof (drawn_ascii _ _ _ Hall) as Hascii.
  unfold shuffle in Hsh.
  apply bind_Returned in Hsh as (rs & w2 & Hloop & Hret).
  unfold ret in Hret. inversion Hret; subst; clear Hret.
  apply shuffleLoop_Returned in Hloop as [Hp Hc2].
  rewrite (runes_length acc Hascii) in Hc2.
  split; [exact Hall |]. split.
  - apply shuffled_string; assumption.
  - rewrite Hc2, Hc1, <- app_assoc. reflexivity.
Qed.

Lemma generatePassword_run config w :
  honours_bound -> validateConfig config = None ->
  match drawEach (sources config (fillCount config)) (reader w) with
  | (inl acc, r1) =>
      accumulate config w =
      (Returned acc,
       {| reader := r1;
          calls := calls w ++ map len (sources config (fillCount config)) |}) /\
      match fisherYates (length (runes_of_string acc) - 1)
                        (runes_of_string acc) r1 with
      | (inl rs, r2) =>
          exists w', reader w' = r2 /\
            generatePassword config w = (Returned (string_of_runes rs), w')
      | (inr e, _) => fst (generatePassword config w) = Failed (ErrShuffle e)
      end
  | (inr e, _) => fst (generatePassword config w) = Failed (ErrRandomIndex e)
  end.
Proof.
  intros Hb Hv. pose proof Hv as Hv'.
  apply validateConfig_None in Hv' as [_ Hne].
  pose proof (writeAll_run (sources config (fillCount config)) [] w Hb
                (sources_nonempty config _ Hne)) as Hrun.
  rewrite <- accumulate_writeAll_wrap in Hrun.
  destruct (drawEach (sources config (fillCount config)) (reader w))
    as [[acc | e] r1].
  - split; [exact Hrun |].
    set (w1 := {| reader := r1;
                  calls := calls w ++ map len (sources config (fillCount config)) |})
      in *.
    assert (Hgp : generatePassword config w = shuffle acc w1).
    { unfold generatePassword. rewrite Hv. unfold bind. rewrite Hrun. reflexivity. }
    rewrite Hgp. unfold shuffle, bind.
    set (rs0 := runes_of_string acc).
    pose proof (shuffleLoop_run (length rs0 - 1) rs0 w1 Hb) as Hsh.
    assert (Hi : (length rs0 - 1 < length rs0)%nat \/ (length rs0 - 1)%nat = O)
      by lia.
    specialize (Hsh Hi). change (reader w1) with r1 in Hsh.
    destruct (fisherYates (length rs0 - 1) rs0 r1) as [[rs | e] r2].
    + rewrite Hsh. unfold ret. eexists. split; [| reflexivity]. reflexivity.
    + destruct (shuffleLoop (length rs0 - 1) rs0 w1) as [[? | ? |] ?];
        simpl in Hsh; try discriminate. inversion Hsh; subst. reflexivity.
  - unfold generatePassword. rewrite Hv. unfold bind.
    destruct (accumulate config w) as [[? | ? |] ?];
      simpl in Hrun; try discriminate. inversion Hrun; subst. reflexivity.
Qed.

Lemma generatePassword_outcome config w :
  honours_bound -> validateConfig config = None ->
  match fst (generatePassword config w) with
  | Returned _ => True
  | Failed e => isRngError e = true
  | Panicked => False
  end.
Proof.
  intros Hb Hv. pose proof (generatePassword_run config w Hb Hv) as H.
  destruct (drawEach _ _) as [[acc | e] r1].
  - destruct H as [_ H]. destruct (fisherYates _ _ _) as [[rs | e] r2].
    + destruct H as (w' & _ & ->). exact I.
    + rewrite H. reflexivity.
  - rewrite H. reflexivity.
Qed.

Lemma generatePassword_total config w :
  honours_bound -> never_fails -> validateConfig config = None ->
  exists s w', generatePassword config w = (Returned s, w').
Proof.
  intros Hb Hnf Hv. pose proof Hv as Hv'.
  apply validateConfig_None in Hv' as [_ Hne].
  pose proof (generatePassword_run config w Hb Hv) as H.
  destruct (drawEach_total (sources config (fillCount config)) (reader w) Hnf
              (sources_nonempty config _ Hne)) as (acc & r1 & Hd).
  rewrite Hd in H. destruct H as [_ H].
  destruct (fisherYates_total (length (runes_of_string acc) - 1)
              (runes_of_string acc) r1 Hnf) as (rs & r2 & Hf).
  rewrite Hf in H. destruct H as (w' & _ & H). eauto.
Qed.

Lemma sources_length config n :
  length (sources config n) = (length (enabledClasses config) + n)%nat.
Proof. unfold sources. rewrite length_app, length_map, length_replicate. reflexivity. Qed.

Lemma fillCount_valid config :
  validateConfig config = None -> is_int (Length config) ->
  Z.of_nat (fillCount config) = Length config - len (enabledClasses config).
Proof.
  intros Hv Hint. unfold fillCount. rewrite remaining_no_wrap by assumption.
  apply validateConfig_None in Hv as [Hlen _].
  pose proof (enabledClasses_bound config). unfold len. lia.
Qed.

Lemma accumulator_length config acc :
  validateConfig config = None -> is_int (Length config) ->
  Forall2 (fun t c => c ∈ t) (sources config (fillCount config)) acc ->
  len acc = Length config.
Proof.
  intros Hv Hint Hall. apply Forall2_length in Hall.
  rewrite sources_length in Hall.
  pose proof (fillCount_valid config Hv Hint) as Hf.
  unfold len in *. lia.
Qed.

(** ** Runs that end in an error *)

Lemma bind_Failed {A B} (m : M A) (f : A -> M B) w e w' :
  bind m f w = (Failed e, w') ->
  m w = (Failed e, w') \/
  exists a w1, m w = (Returned a, w1) /\ f a w1 = (Failed e, w').
Proof.
  unfold bind. destruct (m w) as [[a | e0 |] w1]; intros H.
  - right. eauto.
  - left. inversion H; subst. reflexivity.
  - discriminate.
Qed.

Lemma afterDraws_app bs1 bs2 r :
  afterDraws (bs1 ++ bs2) r = afterDraws bs2 (afterDraws bs1 r).
Proof.
  revert r. induction bs1 as [| b bs1 IH]; intros r; simpl; [reflexivity | apply IH].
Qed.

Lemma source_failed_first w w' max cause :
  0 < max ->
  rand_Int (reader w) max = (inr cause, reader w') ->
  calls w' = calls w ++ [max] ->
  source_failed w w' cause.
Proof.
  intros Hmax Hr Hc. exists [], max. simpl.
  split; [repeat constructor; exact Hmax |]. split; assumption.
Qed.

Lemma source_failed_later w w1 w' bs cause :
  Forall (fun b => 0 < b) bs ->
  reader w1 = afterDraws bs (reader w) ->
  calls w1 = calls w ++ bs ->
  source_failed w1 w' cause ->
  source_failed w w' cause.
Proof.
  intros Hbs Hr Hc (bs' & max & Hpos & Hc' & Hr').
  exists (bs ++ bs'), max. split; [| split].
  - rewrite <- app_assoc. apply Forall_app. split; assumption.
  - rewrite Hc', Hc, <- !app_assoc. reflexivity.
  - rewrite afterDraws_app, <- Hr. exact Hr'.
Qed.

Lemma secureRandomInt_Failed max w e w' :
  0 < max ->
  secureRandomInt max w = (Failed e, w') ->
  rand_Int (reader w) max = (inr e, reader w') /\ calls w' = calls w ++ [max].
Proof.
  intros Hmax. unfold secureRandomInt.
  destruct (max <=? 0) eqn:H; [apply Z.leb_le in H; lia |].
  destruct (rand_Int (reader w) max) as [[n | e0] r]; intros Hs; inversion Hs; subst.
  split; reflexivity.
Qed.

Lemma writeRandomByte_Failed chars pw w e w' :
  0 < len chars ->
  writeRandomByte chars pw w = (Failed e, w') ->
  exists cause, e = ErrRandomIndex cause /\ source_failed w w' cause.
Proof.
  intros Hpos. unfold writeRandomByte, bind, wrap.
  destruct (secureRandomInt (len chars) w) as [[idx | e0 |] w1] eqn:Hs.
  - unfold byteAt. destruct (idx <? 0); [discriminate |].
    destruct (chars !! Z.to_nat idx); discriminate.
  - intros H. inversion H; subst.
    apply (secureRandomInt_Failed _ _ _ _ Hpos) in Hs as [Hr Hc].
    exists e0. split; [reflexivity |].
    apply (source_failed_first _ _ _ _ Hpos Hr Hc).
  - discriminate.
Qed.

Lemma writeRandomByte_reader chars pw w pw' w' :
  writeRandomByte chars pw w = (Returned pw', w') ->
  reader w' = snd (rand_Int (reader w) (len chars)).
Proof.
  unfold writeRandomByte. intros H.
  apply bind_Returned in H as (idx & w1 & Hidx & H).
  apply bind_Returned in H as (c & w2 & Hc & H).
  unfold ret in H. inversion H; subst; clear H.
  unfold wrap in Hidx.
  destruct (secureRandomInt (len chars) w) as [[k | e |] w3] eqn:Hs;
    inversion Hidx; subst.
  apply secureRandomInt_Returned in Hs as (_ & Hr & _).
  unfold byteAt in Hc. destruct (idx <? 0); [discriminate |].
  destruct (chars !! Z.to_nat idx); inversion Hc; subst.
  rewrite Hr. reflexivity.
Qed.

Lemma writeAll_reader ts pw w pw' w' :
  writeAll ts pw w = (Returned pw', w') ->
  reader w' = afterDraws (map len ts) (reader w).
Proof.
  revert pw w. induction ts as [| t ts IH]; intros pw w H; simpl in H.
  - unfold ret in H. inversion H; subst. reflexivity.
  - apply bind_Returned in H as (pw1 & w1 & H1 & H2).
    apply writeRandomByte_reader in H1. apply IH in H2.
    simpl. rewrite <- H1. exact H2.
Qed.

Lemma writeAll_Failed ts pw w e w' :
  Forall (fun t => 0 < len t) ts ->
  writeAll ts pw w = (Failed e, w') ->
  exists cause, e = ErrRandomIndex cause /\ source_failed w w' cause.
Proof.
  intros Hts. revert pw w.
  induction Hts as [| t ts Ht Hts IH]; intros pw w H; simpl in H.
  - discriminate.
  - apply bind_Failed in H as [H | (pw1 & w1 & H1 & H2)].
    + apply (writeRandomByte_Failed _ _ _ _ _ Ht H).
    + apply IH in H2 as (cause & -> & Hf).
      exists cause. split; [reflexivity |].
      apply (source_failed_later w w1 w' [len t] cause).
      * repeat constructor. exact Ht.
      * simpl. apply (writeRandomByte_reader _ _ _ _ _ H1).
      * apply writeRandomByte_Returned in H1 as (c & _ & _ & Hc). exact Hc.
      * exact Hf.
Qed.

Lemma swapRunes_world l i j w r w' :
  swapRunes l i j w = (r, w') -> w' = w /\ forall e, r <> Failed e.
Proof.
  unfold swapRunes, panic, ret. destruct (j <? 0).
  - intros H. inversion H; subst. split; [reflexivity | discriminate].
  - destruct (l !! Z.to_nat j); [destruct (l !! i) |];
      intros H; inversion H; subst; (split; [reflexivity | discriminate]).
Qed.

Lemma shuffleBounds_positive i : Forall (fun b => 0 < b) (shuffleBounds i).
Proof. induction i as [| i IH]; simpl; constructor; [lia | exact IH]. Qed.

Lemma shuffleLoop_reader i l w l' w' :
  shuffleLoop i l w = (Returned l', w') ->
  reader w' = afterDraws (shuffleBounds i) (reader w).
Proof.
  revert l w. induction i as [| i IH]; intros l w H.
  - simpl in H. unfold ret in H. inversion H; subst. reflexivity.
  - cbn [shuffleLoop] in H.
    apply bind_Returned in H as (j & w1 & Hj & H).
    apply bind_Returned in H as (l1 & w2 & Hs & H).
    unfold wrap in Hj.
    destruct (secureRandomInt (Z.of_nat (S i) + 1) w) as [[k | e |] w3] eqn:Hr;
      inversion Hj; subst.
    apply secureRandomInt_Returned in Hr as (_ & Hr & _).
    apply swapRunes_world in Hs as [-> _].
    apply IH in H. cbn [shuffleBounds afterDraws]. rewrite Hr. exact H.
Qed.

Lemma shuffleLoop_Failed i l w e w' :
  shuffleLoop i l w = (Failed e, w') ->
  exists cause, e = ErrShuffle cause /\ source_failed w w' cause.
Proof.
  revert l w. induction i as [| i IH]; intros l w H.
  - discriminate.
  - cbn [shuffleLoop] in H.
    assert (Hpos : 0 < Z.of_nat (S i) + 1) by lia.
    apply bind_Failed in H as [H | (j & w1 & Hj & H)].
    + unfold wrap in H.
      destruct (secureRandomInt (Z.of_nat (S i) + 1) w) as [[k | e0 |] w3] eqn:Hr;
        inversion H; subst.
      apply (secureRandomInt_Failed _ _ _ _ Hpos) in Hr as [Hr Hc].
      exists e0. split; [reflexivity |].
      apply (source_failed_first _ _ _ _ Hpos Hr Hc).
    + unfold wrap in Hj.
      destruct (secureRandomInt (Z.of_nat (S i) + 1) w) as [[k | e0 |] w3] eqn:Hr;
        inversion Hj; subst.
      apply secureRandomInt_Returned in Hr as (_ & Hr & Hc).
      apply bind_Failed in H as [H | (l1 & w2 & Hs & H)].
      * apply swapRunes_world in H as [_ H]. exfalso. apply (H e). reflexivity.
      * apply swapRunes_world in Hs as [-> _].
        apply IH in H as (cause & -> & Hf).
        exists cause. split; [reflexivity |].
        apply (source_failed_later w w1 w' [Z.of_nat (S i) + 1] cause).
        -- constructor; [exact Hpos | constructor].
        -- simpl. rewrite Hr. reflexivity.
        -- exact Hc.
        -- exact Hf.
Qed.

Lemma sources_bounds_positive config n :
  enabledClasses config <> [] ->
  Forall (fun b => 0 < b) (map len (sources config n)).
Proof.
  intros Hne. apply Forall_forall. intros b Hb.
  apply list_elem_of_In, in_map_iff in Hb as (t & <- & Ht).
  pose proof (sources_nonempty config n Hne) as Hall.
  rewrite Forall_forall in Hall. apply Hall, list_elem_of_In, Ht.
Qed.

Lemma generatePassword_Failed config w e w' :
  validateConfig config = None ->
  generatePassword config w = (Failed e, w') ->
  exists cause,
    (e = ErrRandomIndex cause \/ e = ErrShuffle cause) /\
    source_failed w w' cause.
Proof.
  intros Hv. pose proof Hv as Hv'.
  apply validateConfig_None in Hv' as [_ Hne].
  unfold generatePassword. rewrite Hv. intros H.
  apply bind_Failed in H as [H | (acc & w1 & Ha & H)].
  - rewrite accumulate_writeAll_wrap in H.
    apply (writeAll_Failed _ _ _ _ _ (sources_nonempty config _ Hne)) in H
      as (cause & -> & Hf).
    exists cause. split; [left; reflexivity | exact Hf].
  - rewrite accumulate_writeAll_wrap in Ha.
    pose proof (writeAll_reader _ _ _ _ _ Ha) as Hr.
    apply writeAll_Returned in Ha as (cs & _ & _ & Hc).
    unfold shuffle in H.
    apply bind_Failed in H as [H | (rs & w2 & _ & H)]; [| discriminate H].
    apply shuffleLoop_Failed in H as (cause & -> & Hf).
    exists cause. split; [right; reflexivity |].
    apply (source_failed_later w w1 w' _ cause
             (sources_bounds_positive config _ Hne) Hr Hc Hf).
Qed.

Lemma never_fails_no_failure w w' cause :
  never_fails -> ~ source_failed w w' cause.
Proof.
  intros Hnf (bs & max & Hpos & _ & Hr).
  apply Forall_app in Hpos as [_ Hmax]. inversion Hmax; subst.
  destruct (Hnf (afterDraws bs (reader w)) max) as (n & r' & Hn); [assumption |].
  rewrite Hn in Hr. discriminate.
Qed.

(** ** The properties of the specification *)

(** C1. For a config that passes validation, over a random source that
    keeps to its range, [generatePassword] never panics; the string it
    returns holds at least one character of each enabled class's table and
    no character of a disabled class's table; it returns an error, an
    [RngError], only when the source failed in the run; and over a source
    that never fails it does return such a string. *)
Theorem generatePassword_covers_enabled_classes config w :
  honours_bound -> validateConfig config = None ->
  match generatePassword config w with
  | (Returned s, _) => covers config s
  | (Failed e, w') =>
      isRngError e = true /\ exists cause, source_failed w w' cause
  | (Panicked, _) => False
  end /\
  (never_fails ->
   exists s w', generatePassword config w = (Returned s, w') /\ covers config s).
Proof.
  intros Hb Hv.
  assert (Hcov : forall s w', generatePassword config w = (Returned s, w') ->
                              covers config s).
  { intros s w' Hg.
    apply generatePassword_Returned in Hg as (_ & acc & w1 & _ & _ & Hall & Hp & _).
    eapply drawn_covers; eassumption. }
  split.
  - pose proof (generatePassword_outcome config w Hb Hv) as Hout.
    destruct (generatePassword config w) as [[s | e |] w'] eqn:Hg; simpl in Hout.
    + apply (Hcov s w'). reflexivity.
    + split; [exact Hout |].
      destruct (generatePassword_Failed config w e w' Hv Hg) as (cause & _ & Hf).
      exists cause. exact Hf.
    + exact Hout.
  - intros Hnf.
    destruct (generatePassword_total config w Hb Hnf Hv) as (s & w' & Hg).
    exists s, w'. split; [exact Hg | apply (Hcov s w' Hg)].
Qed.

(** C2. For a config that passes validation, over a random source that
    never fails, [generatePassword] returns a string whose length is exactly
    [config.Length]. *)
Theorem generatePassword_length config w :
  honours_bound -> never_fails ->
  validateConfig config = None -> is_int (Length config) ->
  exists s w', generatePassword config w = (Returned s, w') /\
               len s = Length config.
Proof.
  intros Hb Hnf Hv Hint.
  destruct (generatePassword_total config w Hb Hnf Hv) as (s & w' & Hg).
  exists s, w'. split; [exact Hg |].
  apply generatePassword_Returned in Hg as (_ & acc & w1 & _ & _ & Hall & Hp & _).
  rewrite <- (accumulator_length config acc Hv Hint Hall).
  unfold len. f_equal. apply Permutation_length, Hp.
Qed.

(** C3, as amended. For a config in which all four class booleans are false
    and whose length is at least 6, [generatePassword] fails with
    [NoCharacterClassSelected], and the world is left as it was. *)
Theorem no_class_selected_rejected config w :
  UseLowercase config = false -> UseUppercase config = false ->
  UseNumbers config = false -> UseSpecialChars config = false ->
  6 <= Length config ->
  generatePassword config w = (Failed NoCharacterClassSelected, w).
Proof.
  intros Hl Hu Hn Hs Hlen.
  unfold generatePassword, validateConfig, minPasswordLength.
  destruct (Length config <? 6) eqn:Hlt; [apply Z.ltb_lt in Hlt; lia |].
  rewrite Hl, Hu, Hn, Hs. reflexivity.
Qed.

(** C4, as amended. The special-character table is the fixed string
    [!@#$%^&*()_+-=[]{}|;:,.<>?]; it holds 26 characters, all distinct. *)
Theorem specialChars_table :
  specialChars = lit "!@#$%^&*()_+-=[]{}|;:,.<>?" /\
  len specialChars = 26 /\
  NoDup specialChars.
Proof.
  split; [reflexivity |]. split; [reflexivity |].
  apply (bool_decide_unpack _). vm_compute. exact I.
Qed.

(** C5. For a config whose length is below 6, [generatePassword] fails with
    [InvalidLength], whatever the four class booleans are. *)
Theorem short_length_rejected config w :
  Length config < 6 ->
  generatePassword config w = (Failed InvalidLength, w).
Proof.
  intros Hlen. unfold generatePassword, validateConfig, minPasswordLength.
  destruct (Length config <? 6) eqn:Hlt; [reflexivity |].
  apply Z.ltb_ge in Hlt. lia.
Qed.

(** C6. For a config that [validateConfig] rejects, [generatePassword]
    returns that error and leaves the world as it was: the state of the
    random source is untouched and no call of [secureRandomInt] is
    recorded. *)
Theorem invalid_config_draws_nothing config w err :
  validateConfig config = Some err ->
  generatePassword config w = (Failed err, w) /\
  reader (snd (generatePassword config w)) = reader w /\
  calls (snd (generatePassword config w)) = calls w.
Proof.
  intros Hv. unfold generatePassword. rewrite Hv. unfold fail. simpl.
  repeat split.
Qed.

(** C7. For a config that passes validation, the character set the fill
    loop draws from is the concatenation, in the order lowercase, uppercase,
    digits, symbols, of the tables of the enabled classes; and the
    accumulator is drawn position by position from [drawSources]: each
    enabled class's own table in that order, then the composed alphabet. *)
Theorem accumulate_draws_from_sources config w :
  honours_bound -> validateConfig config = None -> is_int (Length config) ->
  buildCharSet config = alphabet config /\
  match drawEach (drawSources config) (reader w) with
  | (inl acc, r') =>
      accumulate config w =
      (Returned acc,
       {| reader := r'; calls := calls w ++ map len (drawSources config) |})
  | (inr e, _) => fst (accumulate config w) = Failed (ErrRandomIndex e)
  end.
Proof.
  intros Hb Hv Hint. split; [apply buildCharSet_alphabet |].
  rewrite (accumulate_writeAll config w Hv Hint).
  pose proof Hv as Hv'. apply validateConfig_None in Hv' as [_ Hne].
  pose proof (writeAll_run (drawSources config) [] w Hb
                (sources_nonempty config _ Hne)) as Hrun.
  destruct (drawEach (drawSources config) (reader w)) as [[acc | e] r'];
    exact Hrun.
Qed.

(** C8. The shuffle loop is the Fisher-Yates algorithm: started at index
    [len - 1] it makes the draws and exchanges of [fisherYates], asking the
    random source for a number below [i + 1] at each index [i] down to 1;
    and when a draw fails, [generatePassword] returns the wrapped error, an
    [RngError], next to the empty string. *)
Theorem shuffle_is_fisherYates :
  honours_bound ->
  (forall (runes : list Z) w,
     match fisherYates (length runes - 1) runes (reader w) with
     | (inl shuffled, r') =>
         shuffleLoop (length runes - 1) runes w =
         (Returned shuffled,
          {| reader := r';
             calls := calls w ++ shuffleBounds (length runes - 1) |})
     | (inr e, _) =>
         fst (shuffleLoop (length runes - 1) runes w) = Failed (ErrShuffle e)
     end) /\
  (forall config w acc w1,
     validateConfig config = None ->
     accumulate config w = (Returned acc, w1) ->
     match fisherYates (length (runes_of_string acc) - 1)
                       (runes_of_string acc) (reader w1) with
     | (inl shuffled, _) =>
         fst (generatePassword config w) = Returned (string_of_runes shuffled)
     | (inr e, _) =>
         fst (generatePassword config w) = Failed (ErrShuffle e) /\
         isRngError (ErrShuffle e) = true /\
         returned_values (fst (generatePassword config w)) =
         Some ([], Some (ErrShuffle e))
     end).
Proof.
  intros Hb. split.
  - intros runes w. apply shuffleLoop_run; [exact Hb | lia].
  - intros config w acc w1 Hv Hacc.
    assert (Hgp : generatePassword config w = shuffle acc w1).
    { unfold generatePassword. rewrite Hv. unfold bind. rewrite Hacc. reflexivity. }
    rewrite Hgp. unfold shuffle, bind.
    set (rs0 := runes_of_string acc).
    pose proof (shuffleLoop_run (length rs0 - 1) rs0 w1 Hb) as Hsh.
    assert (Hi : (length rs0 - 1 < length rs0)%nat \/ (length rs0 - 1)%nat = O)
      by lia.
    specialize (Hsh Hi).
    destruct (fisherYates (length rs0 - 1) rs0 (reader w1)) as [[rs | e] r2].
    + rewrite Hsh. reflexivity.
    + destruct (shuffleLoop (length rs0 - 1) rs0 w1) as [[? | ? |] ?];
        simpl in Hsh; try discriminate. inversion Hsh; subst.
      repeat split.
Qed.

(** C9. The shuffle is a permutation: the string [generatePassword] returns
    has the same multiset of characters as the accumulator held just before
    the shuffle. *)
Theorem shuffle_permutes_accumulator config w s w' :
  generatePassword config w = (Returned s, w') ->
  exists acc w1,
    accumulate config w = (Returned acc, w1) /\
    shuffle acc w1 = (Returned s, w') /\
    Permutation s acc.
Proof.
  intros Hg.
  apply generatePassword_Returned in Hg as (_ & acc & w1 & Ha & Hs & _ & Hp & _).
  exists acc, w1. repeat split; assumption.
Qed.

(** C10. A successful run of [generatePassword] on a config with [k]
    enabled classes makes [2 * config.Length - 1] calls of
    [secureRandomInt]: [k] for the guaranteed inclusion, each asking for an
    index into the class's own table, [config.Length - k] for the fill loop,
    each asking for an index into the composed alphabet, and
    [config.Length - 1] for the shuffle. *)
Theorem generatePassword_call_count config w s w' :
  is_int (Length config) ->
  generatePassword config w = (Returned s, w') ->
  let k := len (enabledClasses config) in
  let inclusion := map (fun c => len (classTable c)) (enabledClasses config) in
  let fill := replicate (Z.to_nat (Length config - k)) (len (alphabet config)) in
  let shuf := shuffleBounds (Z.to_nat (Length config - 1)) in
  calls w' = calls w ++ inclusion ++ fill ++ shuf /\
  len inclusion = k /\
  len fill = Length config - k /\
  len shuf = Length config - 1 /\
  len (inclusion ++ fill ++ shuf) = 2 * Length config - 1.
Proof.
  intros Hint Hg. cbv zeta.
  apply generatePassword_Returned in Hg as (Hv & acc & w1 & _ & _ & Hall & _ & Hc).
  pose proof (accumulator_length config acc Hv Hint Hall) as Hlen.
  pose proof (fillCount_valid config Hv Hint) as Hf.
  pose proof Hv as Hv'. apply validateConfig_None in Hv' as [H6 _].
  pose proof (enabledClasses_bound config) as Hk.
  assert (Hn : (length acc - 1)%nat = Z.to_nat (Length config - 1))
    by (unfold len in Hlen; lia).
  assert (Hfc : fillCount config =
                Z.to_nat (Length config - len (enabledClasses config)))
    by lia.
  rewrite Hn in Hc. unfold sources in Hc.
  rewrite map_app, map_map, Hfc in Hc.
  assert (Hrep : forall n, map len (replicate n (alphabet config)) =
                           replicate n (len (alphabet config))).
  { intros n. induction n as [| n IH]; simpl; [| rewrite IH]; reflexivity. }
  rewrite Hrep, <- app_assoc in Hc.
  split; [exact Hc |].
  unfold len in *.
  rewrite !length_app, length_map, length_replicate, shuffleBounds_length.
  repeat split; lia.
Qed.

(** ** Further properties of the generator *)

(** X1. [secureRandomInt] rejects a bound that is zero or negative with
    "max must be positive" and does not consult the random source; for a
    positive bound, over a source that keeps to its range, it returns a
    number in [[0, max)] or hands the source's own error through, and never
    panics. *)
Theorem secureRandomInt_bounds max w :
  (max <= 0 ->
   secureRandomInt max w =
   (Failed ErrMaxNotPositive,
    {| reader := reader w; calls := calls w ++ [max] |})) /\
  (0 < max -> honours_bound ->
   match secureRandomInt max w with
   | (Returned n, w') =>
       0 <= n < max /\ rand_Int (reader w) max = (inl n, reader w')
   | (Failed e, w') => rand_Int (reader w) max = (inr e, reader w')
   | (Panicked, _) => False
   end).
Proof.
  unfold secureRandomInt. split.
  - intros Hmax. destruct (max <=? 0) eqn:H; [reflexivity |].
    apply Z.leb_gt in H. lia.
  - intros Hmax Hb. specialize (Hb (reader w) max Hmax).
    destruct (max <=? 0) eqn:H; [apply Z.leb_le in H; lia |].
    destruct (rand_Int (reader w) max) as [[n | e] r]; simpl.
    + split; [exact Hb | reflexivity].
    + reflexivity.
Qed.

(** X2. [validateConfig] accepts exactly the configs whose length is at
    least 6 and that enable at least one class, and the only errors it
    returns are the length error and the no-class error. *)
Theorem validateConfig_accepts_iff config :
  (validateConfig config = None <->
   6 <= Length config /\
   (UseLowercase config || UseUppercase config
    || UseNumbers config || UseSpecialChars config = true)) /\
  (forall err, validateConfig config = Some err ->
     err = InvalidLength \/ err = NoCharacterClassSelected).
Proof.
  unfold validateConfig, minPasswordLength, InvalidLength,
    NoCharacterClassSelected, minPasswordLength.
  destruct (Length config <? 6) eqn:Hlen.
  - apply Z.ltb_lt in Hlen. split.
    + split; [discriminate | intros [H _]; lia].
    + intros err H. inversion H. left. reflexivity.
  - apply Z.ltb_ge in Hlen.
    destruct (UseLowercase config), (UseUppercase config),
      (UseNumbers config), (UseSpecialChars config); simpl;
      (split; [split; [intros H; (discriminate H || (split; [lia | reflexivity]))
                      | intros [_ H]; (discriminate H || reflexivity)]
              | intros err H; inversion H; right; reflexivity]).
Qed.

Lemma alphabet_contains config k ch :
  classEnabled config k = true -> ch ∈ classTable k -> ch ∈ alphabet config.
Proof.
  intros Hk Hch. unfold alphabet.
  apply list_elem_of_In, in_concat. exists (classTable k). split.
  - apply in_map, list_elem_of_In, enabledClasses_spec, Hk.
  - apply list_elem_of_In, Hch.
Qed.

(** X3. Every character of a password [generatePassword] returns belongs to
    the character set built from the configuration. *)
Theorem password_within_charSet config w s w' :
  generatePassword config w = (Returned s, w') ->
  Forall (fun ch => ch ∈ buildCharSet config) s.
Proof.
  intros Hg.
  apply generatePassword_Returned in Hg as (_ & acc & w1 & _ & _ & Hall & Hp & _).
  rewrite buildCharSet_alphabet. apply Forall_forall. intros ch Hch.
  rewrite Hp in Hch.
  destruct (drawn_from_enabled _ _ _ _ Hall Hch) as (k & Hk & Hin).
  eapply alphabet_contains; eassumption.
Qed.

Lemma classTable_printable k :
  Forall (fun ch => isPrintable ch = true) (classTable k).
Proof. destruct k; repeat constructor. Qed.

(** X4. A password [generatePassword] returns consists of printable ASCII
    bytes only (0x21 to 0x7E): no space, no control character, no byte of a
    multi-byte encoding. *)
Theorem password_printable config w s w' :
  generatePassword config w = (Returned s, w') ->
  Forall (fun ch => 0x21 <= byte_val ch <= 0x7E) s.
Proof.
  intros Hg.
  apply generatePassword_Returned in Hg as (_ & acc & w1 & _ & _ & Hall & Hp & _).
  apply Forall_forall. intros ch Hch. rewrite Hp in Hch.
  destruct (drawn_from_enabled _ _ _ _ Hall Hch) as (k & _ & Hin).
  pose proof (classTable_printable k) as Hk. rewrite Forall_forall in Hk.
  specialize (Hk ch Hin). unfold isPrintable in Hk.
  apply andb_true_iff in Hk as [H1 H2].
  apply Z.leb_le in H1. apply Z.leb_le in H2. lia.
Qed.

(** X5. On a config that passes validation, when [generatePassword]
    returns an error the source failed in that very run: every call
    recorded, the last included, had a positive bound (the guard of
    [secureRandomInt] never fired), [rand.Int] answered the last call with
    an error in the state the earlier calls had left the source in, and the
    error returned is the random-index wrapper or the shuffle wrapper around
    exactly that error. *)
Theorem generatePassword_error_cause config w e w' :
  validateConfig config = None ->
  generatePassword config w = (Failed e, w') ->
  exists cause bs max,
    (e = ErrRandomIndex cause \/ e = ErrShuffle cause) /\
    Forall (fun b => 0 < b) (bs ++ [max]) /\
    calls w' = calls w ++ bs ++ [max] /\
    rand_Int (afterDraws bs (reader w)) max = (inr cause, reader w').
Proof.
  intros Hv Hg.
  destruct (generatePassword_Failed config w e w' Hv Hg)
    as (cause & He & bs & max & Hpos & Hc & Hr).
  exists cause, bs, max. auto.
Qed.

(** X6. The fill step is robust to a remaining length that is zero or
    negative: the loop runs no iteration, the builder is left as it is and
    nothing is drawn. *)
Theorem fillRest_nothing_left config charSet password w :
  is_int (Length config - len password) ->
  Length config <= len password ->
  fillRest config charSet password w = (Returned password, w).
Proof.
  intros Hint Hle. unfold fillRest, int_sub.
  rewrite (int_wrap_id _ Hint).
  replace (Z.to_nat (Length config - len password)) with O by lia.
  reflexivity.
Qed.

(** ** The interactive layer *)

Lemma readYesNo_step fuel prompt c :
  readYesNo (S fuel) prompt c =
  match yesNo (fst (stdin_ReadString (stdin c))) with
  | Some b =>
      Some (b, {| stdin := snd (stdin_ReadString (stdin c));
                  stdout := stdout c ++ [prompt] |})
  | None =>
      readYesNo fuel prompt
        {| stdin := snd (stdin_ReadString (stdin c));
           stdout := stdout c ++ [prompt; lit "Please enter 'y' or 'n'" ++ newline] |}
  end.
Proof.
  cbn [readYesNo]. unfold readUserInput, yesNo, Print. cbn [stdin stdout].
  destruct (stdin_ReadString (stdin c)) as [line rest]. cbn [fst snd].
  destruct (bool_decide (ToLower (TrimSpace line) = lit "y")
            || bool_decide (ToLower (TrimSpace line) = lit "yes")); [reflexivity |].
  destruct (bool_decide (ToLower (TrimSpace line) = lit "n")
            || bool_decide (ToLower (TrimSpace line) = lit "no")); [reflexivity |].
  unfold Println, Print. cbn [stdin stdout]. rewrite <- app_assoc. reflexivity.
Qed.

(** X7. [readYesNo] skips every line that is none of y, yes, n, no (after
    trimming and lower-casing), complaining once for each, and returns the
    answer of the first line that is one: after [k] refused lines it has
    consumed [k + 1] reads and written the prompt [k + 1] times and the
    complaint [k] times. *)
Theorem readYesNo_answers k b prompt c fuel :
  (forall j, (j < k)%nat -> yesNo (lineAt j (stdin c)) = None) ->
  yesNo (lineAt k (stdin c)) = Some b ->
  (k < fuel)%nat ->
  readYesNo fuel prompt c =
  Some (b, {| stdin := afterReads (S k) (stdin c);
              stdout := stdout c ++ askedTimes k prompt |}).
Proof.
  revert c fuel. induction k as [| k IH]; intros c fuel Hskip Hk Hfuel.
  - destruct fuel as [| fuel]; [lia |]. rewrite readYesNo_step.
    unfold lineAt in Hk. cbn [afterReads] in Hk. rewrite Hk. reflexivity.
  - destruct fuel as [| fuel]; [lia |]. rewrite readYesNo_step.
    pose proof (Hskip O ltac:(lia)) as H0.
    unfold lineAt in H0. cbn [afterReads] in H0. rewrite H0.
    rewrite IH; cbn [stdin stdout].
    + unfold askedTimes. cbn [replicate concat]. rewrite <- !app_assoc.
      reflexivity.
    + intros j Hj. apply (Hskip (S j)). lia.
    + exact Hk.
    + lia.
Qed.

(** X8. When no line to come is an answer (as at the end of input, where
    every read gives the empty string), [readYesNo] never returns: whatever
    the number of iterations allowed, none yields an answer. *)
Theorem readYesNo_never_returns prompt c :
  (forall k, yesNo (lineAt k (stdin c)) = None) ->
  forall fuel, readYesNo fuel prompt c = None.
Proof.
  intros Hall fuel. revert c Hall.
  induction fuel as [| fuel IH]; intros c Hall; [reflexivity |].
  rewrite readYesNo_step.
  pose proof (Hall O) as H0. unfold lineAt in H0. cbn [afterReads] in H0.
  rewrite H0. apply IH. cbn [stdin]. intros k. apply (Hall (S k)).
Qed.

Lemma readYesNo_console fuel prompt c b c' :
  readYesNo fuel prompt c = Some (b, c') ->
  exists out, stdout c' = stdout c ++ out.
Proof.
  revert c. induction fuel as [| fuel IH]; intros c H; [discriminate |].
  rewrite readYesNo_step in H.
  destruct (yesNo (fst (stdin_ReadString (stdin c)))) as [b0 |].
  - inversion H; subst. cbn [stdout]. eauto.
  - apply IH in H as [out Hout]. cbn [stdout] in Hout.
    rewrite <- app_assoc in Hout. eauto.
Qed.

Lemma readConfig_reads_length fuel c config c' :
  readConfig fuel c = Some (config, c') ->
  match Atoi (TrimSpace (lineAt O (stdin c))) with
  | Some n => Length config = n
  | None =>
      Length config = minPasswordLength /\
      lit "Error: Invalid length. Using minimum length of 6" ++ newline
        ∈ stdout c'
  end.
Proof.
  unfold readConfig, readUserInput, lineAt. cbn [afterReads stdin stdout Print].
  destruct (stdin_ReadString (stdin c)) as [line rest]. cbn [fst].
  destruct (Atoi (TrimSpace line)) as [n |];
    match goal with
    | |- context [readYesNo fuel (lit "Include lowercase letters? (y/n): ") ?c1] =>
      destruct (readYesNo fuel (lit "Include lowercase letters? (y/n): ") c1)
        as [[lower c2] |] eqn:H1; [| discriminate]
    end;
    destruct (readYesNo fuel (lit "Include uppercase letters? (y/n): ") c2)
      as [[upper c3] |] eqn:H2; try discriminate;
    destruct (readYesNo fuel (lit "Include numbers? (y/n): ") c3)
      as [[numbers c4] |] eqn:H3; try discriminate;
    destruct (readYesNo fuel (lit "Include special characters? (y/n): ") c4)
      as [[special c5] |] eqn:H4; try discriminate;
    intros H; inversion H; subst; cbn [Length]; [reflexivity |].
  split; [reflexivity |].
  apply readYesNo_console in H1 as [o1 E1].
  apply readYesNo_console in H2 as [o2 E2].
  apply readYesNo_console in H3 as [o3 E3].
  apply readYesNo_console in H4 as [o4 E4].
  rewrite E4, E3, E2, E1. cbn [stdout Print].
  rewrite !elem_of_app. do 4 left. right. apply list_elem_of_singleton.
  reflexivity.
Qed.

(** X9. The length [main] hands to the generator is the number
    [strconv.Atoi] parsed from the trimmed first line, unchanged (a length
    below 6 or negative is not clamped), and the minimum 6 when the line
    does not parse, in which case the fallback notice has been written. *)
Theorem readConfig_length fuel c config c' :
  readConfig fuel c = Some (config, c') ->
  match Atoi (TrimSpace (lineAt O (stdin c))) with
  | Some n => Length config = n
  | None =>
      Length config = minPasswordLength /\
      lit "Error: Invalid length. Using minimum length of 6" ++ newline
        ∈ stdout c'
  end.
Proof.
  intros H. pose proof (readConfig_reads_length fuel c config c' H) as Hl.
  destruct (Atoi (TrimSpace (lineAt O (stdin c)))) as [n |]; exact Hl.
Qed.

Lemma main_unfold fuel c w :
  main fuel c w =
  match readConfig fuel (greeted c) with
  | None => None
  | Some (config, c1) =>
    match generatePassword config w with
    | (Failed err, w') =>
        Some (Exited 1,
              Print (lit "Error generating password: " ++ errorMessage err ++ newline) c1,
              w')
    | (Panicked, w') => Some (Crashed, c1, w')
    | (Returned password, w') => Some (Exited 0, shown password c1, w')
    end
  end.
Proof. reflexivity. Qed.

(** X10. When the config read from the user does not pass validation,
    [main] writes "Error generating password: " and the error's text and
    exits with status 1, and the random source has not been touched. *)
Theorem main_rejects_invalid fuel c w config c1 err :
  readConfig fuel (greeted c) = Some (config, c1) ->
  validateConfig config = Some err ->
  main fuel c w =
  Some (Exited 1,
        Print (lit "Error generating password: " ++ errorMessage err ++ newline) c1,
        w).
Proof.
  intros Hr Hv. rewrite main_unfold, Hr.
  unfold generatePassword. rewrite Hv. reflexivity.
Qed.

(** X11. A length that parses but is below 6 is a hard rejection: whatever
    the answers to the four questions, [main] exits with status 1 after
    writing "Error generating password: password length must be at least 6
    characters". *)
Theorem main_short_length fuel c w n config c1 :
  Atoi (TrimSpace (lineAt O (stdin c))) = Some n -> n < 6 ->
  readConfig fuel (greeted c) = Some (config, c1) ->
  main fuel c w =
  Some (Exited 1,
        Print (lit "Error generating password: password length must be at least 6 characters"
               ++ newline) c1,
        w).
Proof.
  intros Ha Hn Hr.
  pose proof (readConfig_reads_length _ _ _ _ Hr) as Hl.
  change (stdin (greeted c)) with (stdin c) in Hl. rewrite Ha in Hl.
  rewrite main_unfold, Hr.
  unfold generatePassword, validateConfig, minPasswordLength.
  destruct (Length config <? 6) eqn:Hlt; [reflexivity |].
  apply Z.ltb_ge in Hlt. lia.
Qed.

(** X12. When the config read from the user passes validation and the
    random source works, [main] returns with status 0 after writing the
    password between its two delimiter lines; the password has the length
    asked for and covers the classes chosen. *)
Theorem main_succeeds fuel c w config c1 :
  honours_bound -> never_fails ->
  readConfig fuel (greeted c) = Some (config, c1) ->
  validateConfig config = None -> is_int (Length config) ->
  exists password w',
    main fuel c w = Some (Exited 0, shown password c1, w') /\
    len password = Length config /\
    covers config password.
Proof.
  intros Hb Hnf Hr Hv Hint.
  destruct (generatePassword_total config w Hb Hnf Hv) as (s & w' & Hg).
  exists s, w'. rewrite main_unfold, Hr, Hg. split; [reflexivity |].
  apply generatePassword_Returned in Hg as (_ & acc & w1 & _ & _ & Hall & Hp & _).
  split.
  - rewrite <- (accumulator_length config acc Hv Hint Hall).
    unfold len. f_equal. apply Permutation_length, Hp.
  - eapply drawn_covers; eassumption.
Qed.

(** X13. When the length typed does not parse, [main] falls back to the
    minimum: with at least one class chosen and a working random source it
    writes a password of exactly 6 characters and returns with status 0. *)
Theorem main_unparseable_length fuel c w config c1 :
  honours_bound -> never_fails ->
  Atoi (TrimSpace (lineAt O (stdin c))) = None ->
  readConfig fuel (greeted c) = Some (config, c1) ->
  UseLowercase config || UseUppercase config
  || UseNumbers config || UseSpecialChars config = true ->
  exists password w',
    main fuel c w = Some (Exited 0, shown password c1, w') /\
    len password = 6.
Proof.
  intros Hb Hnf Ha Hr Hcls.
  pose proof (readConfig_reads_length _ _ _ _ Hr) as Hl.
  change (stdin (greeted c)) with (stdin c) in Hl. rewrite Ha in Hl.
  destruct Hl as [Hl _]. unfold minPasswordLength in Hl.
  assert (Hv : validateConfig config = None).
  { unfold validateConfig, minPasswordLength. rewrite Hl. simpl.
    destruct (UseLowercase config), (UseUppercase config),
      (UseNumbers config), (UseSpecialChars config);
      (reflexivity || discriminate Hcls). }
  assert (Hint : is_int (Length config)).
  { rewrite Hl. unfold is_int, intSize.
    change (2 ^ (64 - 1)) with 9223372036854775808. lia. }
  destruct (generatePassword_total config w Hb Hnf Hv) as (s & w' & Hg).
  exists s, w'. rewrite main_unfold, Hr, Hg. split; [reflexivity |].
  apply generatePassword_Returned in Hg as (_ & acc & w1 & _ & _ & Hall & Hp & _).
  rewrite <- Hl, <- (accumulator_length config acc Hv Hint Hall).
  unfold len. f_equal. apply Permutation_length, Hp.
Qed.

(** X14. Over a random source that keeps to its range, [main] never ends
    in a panic: once the questions are answered it exits with status 0 or
    with status 1. *)
Theorem main_never_crashes fuel c w t c' w' :
  honours_bound ->
  main fuel c w = Some (t, c', w') ->
  t = Exited 0 \/ t = Exited 1.
Proof.
  intros Hb. rewrite main_unfold.
  destruct (readConfig fuel (greeted c)) as [[config c1] |]; [| discriminate].
  destruct (validateConfig config) as [err |] eqn:Hv.
  - unfold generatePassword. rewrite Hv. unfold fail.
    intros H. inversion H. right. reflexivity.
  - pose proof (generatePassword_outcome config w Hb Hv) as Hout.
    destruct (generatePassword config w) as [[s | e |] w2]; simpl in Hout;
      intros H; inversion H; subst; tauto.
Qed.

End Generator.

(** ** The two concrete sources keep the contract *)

Lemma lcg_honours_bound : honours_bound lcg_Int.
Proof.
  intros r max Hmax. unfold lcg_Int.
  pose proof (Z.mod_pos_bound r max Hmax). lia.
Qed.

Lemma lcg_never_fails : never_fails lcg_Int.
Proof. intros r max _. unfold lcg_Int. eauto. Qed.

Lemma script_honours_bound : honours_bound script_Int.
Proof.
  intros r max Hmax. unfold script_Int. destruct r as [| x rest]; [exact I |].
  pose proof (Z.mod_pos_bound x max Hmax). lia.
Qed.

Lemma is_int_small z : - 1000 <= z <= 1000 -> is_int z.
Proof.
  unfold is_int, intSize.
  change (2 ^ (64 - 1)) with 9223372036854775808. lia.
Qed.

(** ** The properties at concrete inputs *)

Lemma generatePassword_covers_enabled_classes_witness :
  validateConfig allClasses12 = None /\
  generatePassword lcg_Int allClasses12 (seeded 42)
  = (Returned (lit "!qd@YnB4+ibK"),
     {| reader := 881784893;
        calls := [26; 26; 10; 26; 88; 88; 88; 88; 88; 88; 88; 88;
                  12; 11; 10; 9; 8; 7; 6; 5; 4; 3; 2] |}) /\
  covers allClasses12 (lit "!qd@YnB4+ibK") /\
  exists s w',
    generatePassword lcg_Int allClasses12 (seeded 42) = (Returned s, w') /\
    covers allClasses12 s.
Proof.
  assert (Hrun : generatePassword lcg_Int allClasses12 (seeded 42)
                 = (Returned (lit "!qd@YnB4+ibK"),
                    {| reader := 881784893;
                       calls := [26; 26; 10; 26; 88; 88; 88; 88; 88; 88; 88; 88;
                                 12; 11; 10; 9; 8; 7; 6; 5; 4; 3; 2] |}))
    by (vm_compute; reflexivity).
  split; [reflexivity |]. split; [exact Hrun |].
  pose proof (generatePassword_covers_enabled_classes lcg_Int allClasses12
                (seeded 42) lcg_honours_bound eq_refl) as [Hcov Hret].
  rewrite Hrun in Hcov. split.
  - exact Hcov.
  - exact (Hret lcg_never_fails).
Defined.

Lemma generatePassword_length_witness :
  exists s w',
    generatePassword lcg_Int lowercase6 (seeded 7) = (Returned s, w') /\
    len s = 6.
Proof.
  apply (generatePassword_length lcg_Int lowercase6 (seeded 7)).
  - exact lcg_honours_bound.
  - exact lcg_never_fails.
  - reflexivity.
  - apply is_int_small. simpl. lia.
Defined.

Lemma no_class_short_length_counterexample :
  UseLowercase noClass5 = false /\ UseUppercase noClass5 = false /\
  UseNumbers noClass5 = false /\ UseSpecialChars noClass5 = false /\
  fst (generatePassword lcg_Int noClass5 (seeded 1)) = Failed InvalidLength /\
  fst (generatePassword lcg_Int noClass5 (seeded 1))
    <> Failed NoCharacterClassSelected.
Proof. repeat split. discriminate. Qed.

Lemma no_class_selected_rejected_witness :
  generatePassword lcg_Int noClass10 (seeded 1)
  = (Failed NoCharacterClassSelected, seeded 1).
Proof.
  apply (no_class_selected_rejected lcg_Int noClass10 (seeded 1));
    try reflexivity.
  simpl. lia.
Defined.

Lemma specialChars_not_28 : len specialChars <> 28.
Proof. discriminate. Qed.

Lemma short_length_rejected_witness :
  generatePassword lcg_Int lowercase5 (seeded 1) = (Failed InvalidLength, seeded 1).
Proof.
  apply (short_length_rejected lcg_Int lowercase5 (seeded 1)). simpl. lia.
Defined.

Lemma invalid_config_draws_nothing_witness :
  generatePassword lcg_Int noClass10 (seeded 1)
  = (Failed ErrNoCharacterType, seeded 1) /\
  reader (snd (generatePassword lcg_Int noClass10 (seeded 1))) = 1 /\
  calls (snd (generatePassword lcg_Int noClass10 (seeded 1))) = [].
Proof.
  apply (invalid_config_draws_nothing lcg_Int noClass10 (seeded 1)).
  reflexivity.
Defined.

Lemma accumulate_draws_from_sources_witness :
  buildCharSet allClasses12 = alphabet allClasses12 /\
  match drawEach lcg_Int (drawSources allClasses12) 42 with
  | (inl acc, r') =>
      accumulate lcg_Int allClasses12 (seeded 42) =
      (Returned acc,
       {| reader := r'; calls := [] ++ map len (drawSources allClasses12) |})
  | (inr e, _) =>
      fst (accumulate lcg_Int allClasses12 (seeded 42)) = Failed (ErrRandomIndex e)
  end.
Proof.
  apply (accumulate_draws_from_sources lcg_Int allClasses12 (seeded 42)).
  - exact lcg_honours_bound.
  - reflexivity.
  - apply is_int_small. simpl. lia.
Defined.

Lemma shuffle_is_fisherYates_witness :
  accumulate script_Int lowercase6 (scripted [3; 1; 4; 1; 5; 9; 2; 6])
  = (Returned (lit "dbebfj"),
     {| reader := [2; 6]; calls := [26; 26; 26; 26; 26; 26] |}) /\
  fst (generatePassword script_Int lowercase6 (scripted [3; 1; 4; 1; 5; 9; 2; 6]))
  = Failed (ErrShuffle (ErrReader "entropy source unreadable")) /\
  isRngError (ErrShuffle (ErrReader "entropy source unreadable")) = true /\
  returned_values
    (fst (generatePassword script_Int lowercase6
            (scripted [3; 1; 4; 1; 5; 9; 2; 6])))
  = Some ([], Some (ErrShuffle (ErrReader "entropy source unreadable"))).
Proof.
  split; [reflexivity |].
  exact (proj2 (shuffle_is_fisherYates script_Int script_honours_bound)
           lowercase6 (scripted [3; 1; 4; 1; 5; 9; 2; 6])
           (lit "dbebfj")
           {| reader := [2; 6]; calls := [26; 26; 26; 26; 26; 26] |}
           eq_refl eq_refl).
Defined.

Lemma shuffle_permutes_accumulator_witness :
  generatePassword lcg_Int lowercase6 (seeded 7)
  = (Returned (lit "pchuxi"),
     {| reader := 734865450;
        calls := [26; 26; 26; 26; 26; 26; 6; 5; 4; 3; 2] |}) /\
  exists acc w1,
    accumulate lcg_Int lowercase6 (seeded 7) = (Returned acc, w1) /\
    shuffle lcg_Int acc w1
    = (Returned (lit "pchuxi"),
       {| reader := 734865450;
          calls := [26; 26; 26; 26; 26; 26; 6; 5; 4; 3; 2] |}) /\
    Permutation (lit "pchuxi") acc.
Proof.
  split; [reflexivity |].
  apply (shuffle_permutes_accumulator lcg_Int lowercase6 (seeded 7)).
  reflexivity.
Defined.

Lemma generatePassword_call_count_witness :
  generatePassword lcg_Int lowercase6 (seeded 7)
  = (Returned (lit "pchuxi"),
     {| reader := 734865450;
        calls := [26; 26; 26; 26; 26; 26; 6; 5; 4; 3; 2] |}) /\
  [26; 26; 26; 26; 26; 26; 6; 5; 4; 3; 2]
  = [] ++ [26] ++ replicate 5 26 ++ shuffleBounds 5 /\
  len [26] = 1 /\
  len (replicate 5 26) = 6 - 1 /\
  len (shuffleBounds 5) = 6 - 1 /\
  len ([26] ++ replicate 5 26 ++ shuffleBounds 5) = 2 * 6 - 1.
Proof.
  split; [reflexivity |].
  apply (generatePassword_call_count lcg_Int lowercase6 (seeded 7)
           (lit "pchuxi")
           {| reader := 734865450;
              calls := [26; 26; 26; 26; 26; 26; 6; 5; 4; 3; 2] |}).
  - apply is_int_small. simpl. lia.
  - reflexivity.
Defined.

(** ** The further properties at concrete inputs *)

Lemma secureRandomInt_bounds_witness :
  secureRandomInt lcg_Int 0 (seeded 3)
  = (Failed ErrMaxNotPositive, {| reader := 3; calls := [0] |}) /\
  match secureRandomInt lcg_Int 10 (seeded 3) with
  | (Returned n, w') => 0 <= n < 10 /\ lcg_Int 3 10 = (inl n, reader w')
  | (Failed e, w') => lcg_Int 3 10 = (inr e, reader w')
  | (Panicked, _) => False
  end.
Proof.
  split.
  - apply (proj1 (secureRandomInt_bounds lcg_Int 0 (seeded 3))). lia.
  - apply (proj2 (secureRandomInt_bounds lcg_Int 10 (seeded 3)));
      [lia | exact lcg_honours_bound].
Defined.

Lemma validateConfig_accepts_iff_witness :
  validateConfig allClasses12 = None /\
  (ErrNoCharacterType = InvalidLength \/
   ErrNoCharacterType = NoCharacterClassSelected).
Proof.
  split.
  - apply (proj1 (validateConfig_accepts_iff allClasses12)).
    split; [simpl; lia | reflexivity].
  - apply (proj2 (validateConfig_accepts_iff noClass10)). reflexivity.
Defined.

Lemma password_within_charSet_witness :
  Forall (fun ch => ch ∈ buildCharSet lowercase6) (lit "pchuxi").
Proof.
  apply (password_within_charSet lcg_Int lowercase6 (seeded 7) (lit "pchuxi")
           {| reader := 734865450;
              calls := [26; 26; 26; 26; 26; 26; 6; 5; 4; 3; 2] |}).
  reflexivity.
Defined.

Lemma password_printable_witness :
  Forall (fun ch => 0x21 <= byte_val ch <= 0x7E) (lit "pchuxi").
Proof.
  apply (password_printable lcg_Int lowercase6 (seeded 7) (lit "pchuxi")
           {| reader := 734865450;
              calls := [26; 26; 26; 26; 26; 26; 6; 5; 4; 3; 2] |}).
  reflexivity.
Defined.

Lemma generatePassword_error_cause_witness :
  generatePassword script_Int lowercase6 (scripted [3; 1; 4; 1; 5; 9; 2; 6])
  = (Failed (ErrShuffle (ErrReader "entropy source unreadable")),
     {| reader := []; calls := [26; 26; 26; 26; 26; 26; 6; 5; 4] |}) /\
  exists cause bs max,
    (ErrShuffle (ErrReader "entropy source unreadable") = ErrRandomIndex cause \/
     ErrShuffle (ErrReader "entropy source unreadable") = ErrShuffle cause) /\
    Forall (fun b => 0 < b) (bs ++ [max]) /\
    [26; 26; 26; 26; 26; 26; 6; 5; 4] = [] ++ bs ++ [max] /\
    script_Int (afterDraws script_Int bs [3; 1; 4; 1; 5; 9; 2; 6]) max
    = (inr cause, []).
Proof.
  split; [reflexivity |].
  apply (generatePassword_error_cause script_Int lowercase6
           (scripted [3; 1; 4; 1; 5; 9; 2; 6])
           (ErrShuffle (ErrReader "entropy source unreadable"))
           {| reader := []; calls := [26; 26; 26; 26; 26; 26; 6; 5; 4] |}).
  - reflexivity.
  - reflexivity.
Defined.

Lemma fillRest_nothing_left_witness :
  fillRest lcg_Int lowercase6 lowercaseChars (lit "abcdefg") (seeded 1)
  = (Returned (lit "abcdefg"), seeded 1).
Proof.
  apply (fillRest_nothing_left lcg_Int lowercase6 lowercaseChars (lit "abcdefg")
           (seeded 1)).
  - apply is_int_small. vm_compute. split; discriminate.
  - vm_compute. discriminate.
Defined.

Lemma readYesNo_answers_witness :
  readYesNo script_ReadString ascii_TrimSpace ascii_ToLower 2
    (lit "Include numbers? (y/n): ")
    (console [typed "maybe"; typed " YES "; typed "n"])
  = Some (true,
          {| stdin := [typed "n"];
             stdout := [lit "Include numbers? (y/n): ";
                        typed "Please enter 'y' or 'n'";
                        lit "Include numbers? (y/n): "] |}).
Proof.
  apply (readYesNo_answers script_ReadString ascii_TrimSpace ascii_ToLower
           1 true (lit "Include numbers? (y/n): ")
           (console [typed "maybe"; typed " YES "; typed "n"]) 2).
  - intros j Hj. assert (j = O) as -> by lia. reflexivity.
  - reflexivity.
  - lia.
Defined.

Lemma end_of_input k : afterReads script_ReadString k [] = [].
Proof. induction k as [| k IH]; [reflexivity | exact IH]. Qed.

Lemma readYesNo_never_returns_witness :
  readYesNo script_ReadString ascii_TrimSpace ascii_ToLower 1000
    (lit "Include numbers? (y/n): ") (console []) = None.
Proof.
  apply (readYesNo_never_returns script_ReadString ascii_TrimSpace ascii_ToLower
           (lit "Include numbers? (y/n): ") (console [])).
  intros k. unfold lineAt. simpl. rewrite end_of_input. reflexivity.
Defined.

Lemma readConfig_length_witness :
  exists config c',
    readConfig script_ReadString ascii_TrimSpace ascii_ToLower digits_Atoi 1
      (console [typed "abc"; typed "y"; typed "n"; typed "n"; typed "n"])
    = Some (config, c') /\
    Length config = 6 /\
    typed "Error: Invalid length. Using minimum length of 6" ∈ stdout c'.
Proof.
  eexists _, _. split; [reflexivity |].
  exact (readConfig_length script_ReadString ascii_TrimSpace ascii_ToLower
           digits_Atoi 1
           (console [typed "abc"; typed "y"; typed "n"; typed "n"; typed "n"])
           _ _ eq_refl).
Defined.

Lemma main_rejects_invalid_witness :
  exists c1,
    main lcg_Int script_ReadString ascii_TrimSpace ascii_ToLower digits_Atoi 1
      (console [typed "10"; typed "n"; typed "n"; typed "n"; typed "n"])
      (seeded 5)
    = Some (Exited 1,
            Print (typed "Error generating password: at least one character type must be selected")
                  c1,
            seeded 5).
Proof.
  eexists.
  apply (main_rejects_invalid lcg_Int script_ReadString ascii_TrimSpace
           ascii_ToLower digits_Atoi 1
           (console [typed "10"; typed "n"; typed "n"; typed "n"; typed "n"])
           (seeded 5) noClass10 _ ErrNoCharacterType).
  - reflexivity.
  - reflexivity.
Defined.

Lemma main_short_length_witness :
  exists c1,
    main lcg_Int script_ReadString ascii_TrimSpace ascii_ToLower digits_Atoi 1
      (console [typed "5"; typed "y"; typed "y"; typed "n"; typed "n"])
      (seeded 5)
    = Some (Exited 1,
            Print (typed "Error generating password: password length must be at least 6 characters")
                  c1,
            seeded 5).
Proof.
  eexists.
  eapply (main_short_length lcg_Int script_ReadString ascii_TrimSpace
           ascii_ToLower digits_Atoi 1
           (console [typed "5"; typed "y"; typed "y"; typed "n"; typed "n"])
           (seeded 5) 5).
  - reflexivity.
  - lia.
  - reflexivity.
Defined.

Lemma main_succeeds_witness :
  exists config c1,
    readConfig script_ReadString ascii_TrimSpace ascii_ToLower digits_Atoi 3
      (greeted (console [typed " 8 "; typed "Y"; typed "maybe"; typed "no";
                         typed "YES"; typed "n"]))
    = Some (config, c1) /\
    exists password w',
      main lcg_Int script_ReadString ascii_TrimSpace ascii_ToLower digits_Atoi 3
        (console [typed " 8 "; typed "Y"; typed "maybe"; typed "no";
                  typed "YES"; typed "n"])
        (seeded 5)
      = Some (Exited 0, shown password c1, w') /\
      len password = Length config /\
      covers config password.
Proof.
  eexists _, _. split; [reflexivity |].
  apply (main_succeeds lcg_Int script_ReadString ascii_TrimSpace ascii_ToLower
           digits_Atoi 3).
  - exact lcg_honours_bound.
  - exact lcg_never_fails.
  - reflexivity.
  - reflexivity.
  - apply is_int_small. vm_compute. split; discriminate.
Defined.

Lemma main_unparseable_length_witness :
  exists c1 password w',
    main lcg_Int script_ReadString ascii_TrimSpace ascii_ToLower digits_Atoi 1
      (console [typed "abc"; typed "y"; typed "n"; typed "n"; typed "n"])
      (seeded 5)
    = Some (Exited 0, shown password c1, w') /\
    len password = 6.
Proof.
  eexists.
  eapply (main_unparseable_length lcg_Int script_ReadString ascii_TrimSpace
            ascii_ToLower digits_Atoi 1
            (console [typed "abc"; typed "y"; typed "n"; typed "n"; typed "n"])
            (seeded 5)).
  - exact lcg_honours_bound.
  - exact lcg_never_fails.
  - reflexivity.
  - reflexivity.
  - reflexivity.
Defined.

Lemma main_never_crashes_witness :
  exists t c' w',
    main lcg_Int script_ReadString ascii_TrimSpace ascii_ToLower digits_Atoi 3
      (console [typed " 8 "; typed "Y"; typed "maybe"; typed "no";
                typed "YES"; typed "n"])
      (seeded 5)
    = Some (t, c', w') /\
    t = Exited 0 /\
    calls w' = [26; 10; 36; 36; 36; 36; 36; 36; 8; 7; 6; 5; 4; 3; 2] /\
    (t = Exited 0 \/ t = Exited 1).
Proof.
  let v := eval vm_compute in
      (main lcg_Int script_ReadString ascii_TrimSpace ascii_ToLower digits_Atoi 3
         (console [typed " 8 "; typed "Y"; typed "maybe"; typed "no";
                   typed "YES"; typed "n"])
         (seeded 5)) in
  assert (Hrun : main lcg_Int script_ReadString ascii_TrimSpace ascii_ToLower
                   digits_Atoi 3
                   (console [typed " 8 "; typed "Y"; typed "maybe"; typed "no";
                             typed "YES"; typed "n"])
                   (seeded 5) = v)
    by (vm_compute; reflexivity).
  match type of Hrun with
  | _ = Some (?t, ?c, ?w) => exists t, c, w
  end.
  split; [exact Hrun |]. split; [reflexivity |]. split; [reflexivity |].
  exact (main_never_crashes lcg_Int script_ReadString ascii_TrimSpace
           ascii_ToLower digits_Atoi 3 _ _ _ _ _ lcg_honours_bound Hrun).
Defined.
